(** * Sales dashboard pipeline (dashboard_app.py): load, filter, aggregate, rank

    A shallow embedding of the data pipeline of [dashboard_app.py].  A pandas
    DataFrame is a list of row records in index order; a float64 column holds
    Rocq's primitive binary64 floats, so sums, ratios and comparisons are the
    IEEE-754 ones the program computes.  Calls into pandas are modelled by
    what pandas documents for the arguments the program passes. *)

From Stdlib Require Import ZArith Lia List Bool Sorting.Sorted Sorting.Permutation.
From Stdlib Require Import Strings.String Strings.Ascii.
From Stdlib Require Import Floats.
From Stdlib Require QArith Qcanon.
From stdpp Require Import base list sorting.

Local Open Scope Z_scope.

(** ** Timestamps *)

(** A [pd.Timestamp] through its calendar fields; [nanos] is the time of day.
    Timestamps of valid dates compare as their field tuples do. *)
Record Timestamp := mkTs {
  year : Z;
  month_of : Z;
  day : Z;
  nanos : Z
}.

Definition ts_key (t : Timestamp) : list Z :=
  [year t; month_of t; day t; nanos t].

Fixpoint lex_leb (a b : list Z) : bool :=
  match a, b with
  | [], _ => true
  | _ :: _, [] => false
  | x :: a', y :: b' => (x <? y) || ((x =? y) && lex_leb a' b')
  end.

(** [t1 <= t2], [t1 < t2] and [t1 == t2] on timestamps. *)
Definition ts_leb (t1 t2 : Timestamp) : bool := lex_leb (ts_key t1) (ts_key t2).

Definition ts_ltb (t1 t2 : Timestamp) : bool := negb (ts_leb t2 t1).

Definition ts_eqb (t1 t2 : Timestamp) : bool := ts_leb t1 t2 && ts_leb t2 t1.

Definition ts_le (t1 t2 : Timestamp) : Prop := ts_leb t1 t2 = true.

(** [dt.to_period("M").dt.to_timestamp()]: the start of the calendar month. *)
Definition to_month_start (t : Timestamp) : Timestamp :=
  mkTs (year t) (month_of t) 1 0.

(** ** Rows *)

(** A row of the CSV file, as [pd.read_csv] returns it. *)
Record CsvRow := mkCsv {
  order_date : Timestamp;
  region : string;
  customer_segment : string;
  product_category : string;
  sub_category : string;
  revenue : float;
  profit : float;
  units : float;
  discount : float
}.

(** A row of the frame [load_data] returns: the CSV columns and the two
    columns it assigns. *)
Record SaleRecord := mkSale {
  csv :> CsvRow;
  month : Timestamp;
  gross_margin : float
}.

(** A row of [ranked]: the columns of the filtered frame and the two columns
    [assign] adds. *)
Record RankedRow := mkRanked {
  sale :> SaleRecord;
  revenue_per_unit : float;
  contribution : float
}.

(** The sidebar's selections. *)
Record Criteria := mkCriteria {
  start_date : Timestamp;
  end_date : Timestamp;
  selected_regions : list string;
  selected_segments : list string;
  selected_categories : list string
}.

(** ** Filter (lines 76-83) *)

(** [Series.isin(values)] on a string column. *)
Definition isin (x : string) (values : list string) : bool :=
  existsb (String.eqb x) values.

Definition mask (c : Criteria) (r : SaleRecord) : bool :=
  ts_leb (start_date c) (order_date r)
  && ts_leb (order_date r) (end_date c)
  && isin (region r) (selected_regions c)
  && isin (customer_segment r) (selected_segments c)
  && isin (product_category r) (selected_categories c).

(** [df.loc[mask]] *)
Definition filter_view (df : list SaleRecord) (c : Criteria) : list SaleRecord :=
  List.filter (mask c) df.

(** ** Sorting (pandas [sort_values], numpy [argsort]) *)

(** [numpy.argsort(kind="quicksort")], the kind [sort_values] uses when the
    caller names none: from the keys and their less-than test, the positions
    of the keys in sorted order. *)
Record Sorter := mkSorter {
  argsort : forall K : Type, (K -> K -> bool) -> list K -> list nat
}.

Arguments argsort _ {K} _ _.

(** What numpy promises of [argsort] for the quicksort kind: the positions are
    a rearrangement of [0 .. n-1] and, for an asymmetric less-than, the keys
    taken in that order never step down.  The order among equal keys is left
    open: pandas documents only the mergesort and stable kinds as stable. *)
Definition sorter_ok (S : Sorter) : Prop :=
  forall (K : Type) (ltb : K -> K -> bool) (ks : list K),
    Permutation (argsort S ltb ks) (seq 0 (length ks))
    /\ ((forall a b, ltb a b = true -> ltb b a = false) ->
        Sorted (fun a b => ltb b a = false)
               (omap (fun i => ks !! i) (argsort S ltb ks))).

(** [frame.take(indexer)] *)
Definition take_rows {A} (indexer : list nat) (rows : list A) : list A :=
  omap (fun i => rows !! i) indexer.

(** The rows in the order [argsort] gives their keys. *)
Definition argsorted {A K} (S : Sorter) (by_ : A -> K) (ltb : K -> K -> bool)
    (rows : list A) : list A :=
  take_rows (argsort S ltb (map by_ rows)) rows.

(** [frame.sort_values(by, ascending=...)] with the default [na_position]:
    rows with a missing key go last, in frame order; the others are ordered by
    [argsort], on the reversed rows and reversed back when descending. *)
Definition sort_values {A K} (S : Sorter) (by_ : A -> K) (isna : K -> bool)
    (ltb : K -> K -> bool) (ascending : bool) (rows : list A) : list A :=
  let non_nans := List.filter (fun r => negb (isna (by_ r))) rows in
  let nans := List.filter (fun r => isna (by_ r)) rows in
  let non_nans := if ascending then non_nans else rev non_nans in
  let sorted := argsorted S by_ ltb non_nans in
  (if ascending then sorted else rev sorted) ++ nans.

(** ** Loader (lines 12-18) *)

Definition derive (r : CsvRow) : SaleRecord :=
  mkSale r (to_month_start (order_date r)) (profit r / revenue r)%float.

(** [load_data], from the rows [pd.read_csv] parsed. *)
Definition load_data (S : Sorter) (raw : list CsvRow) : list SaleRecord :=
  map derive (sort_values S order_date (fun _ => false) ts_ltb true raw).

(** ** Aggregates (lines 90-94, 114-116, 129-131, 145-147) *)

(** The values present: what a reduction with [skipna=True] works on. *)
Definition notna (xs : list float) : list float :=
  List.filter (fun x => negb (is_nan x)) xs.

(** [fillna(0)] on one value: what [Series.sum()] adds for a missing one. *)
Definition fill0 (x : float) : float := if is_nan x then 0%float else x.

Definition add_lanes (r c : list float) : list float :=
  map (fun p => (fst p + snd p)%float) (combine r c).

(** The eight running sums of numpy's unrolled loop, over whole blocks of 8. *)
Fixpoint accumulate8 (fuel : nat) (r ys : list float) : list float :=
  match fuel, ys with
  | Datatypes.S fuel', _ :: _ => accumulate8 fuel' (add_lanes r (firstn 8 ys)) (skipn 8 ys)
  | _, _ => r
  end.

Definition tree8 (r : list float) : float :=
  match r with
  | [r0; r1; r2; r3; r4; r5; r6; r7] =>
      (((r0 + r1) + (r2 + r3)) + ((r4 + r5) + (r6 + r7)))%float
  | _ => 0%float
  end.

(** numpy's sum of 8 to 128 values: eight lanes, a tree over the lanes, then
    the values left over, one by one. *)
Definition block_sum (xs : list float) : float :=
  let rest := skipn 8 xs in
  let whole := (length rest / 8 * 8)%nat in
  let lanes := accumulate8 (length rest) (firstn 8 xs) (firstn whole rest) in
  fold_left PrimFloat.add (skipn whole rest) (tree8 lanes).

(** numpy's pairwise sum ([add.reduce] on a float64 array): fewer than 8
    values one by one from -0.0, up to 128 by [block_sum], more by halves cut
    at a multiple of 8. *)
Fixpoint pairwise_sum_fuel (fuel : nat) (xs : list float) : float :=
  let n := length xs in
  if (n <? 8)%nat then fold_left PrimFloat.add xs (-0)%float
  else if (n <=? 128)%nat then block_sum xs
  else
    match fuel with
    | O => block_sum xs
    | Datatypes.S fuel' =>
        let n2 := (n / 2 - (n / 2) mod 8)%nat in
        (pairwise_sum_fuel fuel' (firstn n2 xs) + pairwise_sum_fuel fuel' (skipn n2 xs))%float
    end.

Definition pairwise_sum (xs : list float) : float :=
  pairwise_sum_fuel (length xs) xs.

(** [Series.sum()] ([skipna=True]): missing values count as 0.0, the rest is
    numpy's sum; 0.0 on an empty column. *)
Definition nansum (xs : list float) : float :=
  match xs with
  | [] => 0%float
  | _ :: _ => pairwise_sum (map fill0 xs)
  end.

Definition count_float (n : nat) : float := of_uint63 (Uint63.of_Z (Z.of_nat n)).

(** [Series.mean()]: that sum over the count of the values present; NaN when
    none is present. *)
Definition nanmean (xs : list float) : float :=
  let count := length (notna xs) in
  match count with
  | O => nan
  | _ => (nansum xs / count_float count)%float
  end.

(** One step of the compensated (Kahan) sum pandas keeps per group: the
    running sum and its compensation, which is reset when it is NaN. *)
Definition kahan_step (st : float * float) (val : float) : float * float :=
  let '(sumx, compensation) := st in
  let y := (val - compensation)%float in
  let t := (sumx + y)%float in
  let c := (t - sumx - y)%float in
  (t, if is_nan c then 0%float else c).

(** [groupby(...)[col].sum()] on one group: the compensated sum of the values
    present. *)
Definition group_sum (xs : list float) : float :=
  fst (fold_left kahan_step (notna xs) (0%float, 0%float)).

(** [groupby(...)[col].mean()] on one group: the compensated sum over the
    count of the values present; NaN when none is present. *)
Definition group_mean (xs : list float) : float :=
  match length (notna xs) with
  | O => nan
  | n => (group_sum xs / count_float n)%float
  end.

(** The scalar KPIs of lines 90-94. *)
Record KPISummary := mkKPI {
  total_revenue : float;
  total_profit : float;
  total_units : float;
  avg_discount : float;
  avg_gross_margin : float
}.

Definition summarize (view : list SaleRecord) : KPISummary :=
  mkKPI (nansum (map (fun r : SaleRecord => revenue r) view))
        (nansum (map (fun r : SaleRecord => profit r) view))
        (nansum (map (fun r : SaleRecord => units r) view))
        (nanmean (map (fun r : SaleRecord => discount r) view))
        (nanmean (map gross_margin view)).

(** Insertion of a group key into the sorted list of the keys seen. *)
Fixpoint insert_key {K} (eqb leb : K -> K -> bool) (k : K) (keys : list K) : list K :=
  match keys with
  | [] => [k]
  | x :: keys' =>
      if eqb k x then keys
      else if leb k x then k :: keys
      else x :: insert_key eqb leb k keys'
  end.

(** The distinct group keys, ascending: [groupby] sorts them ([sort=True]). *)
Definition group_keys {K} (eqb leb : K -> K -> bool) (ks : list K) : list K :=
  fold_right (insert_key eqb leb) [] ks.

(** [frame.groupby(key)]: each key, ascending, with its rows in frame order. *)
Definition groupby {K} (eqb leb : K -> K -> bool) (key : SaleRecord -> K)
    (view : list SaleRecord) : list (K * list SaleRecord) :=
  map (fun k => (k, List.filter (fun r => eqb (key r) k) view))
      (group_keys eqb leb (map key view)).

(** [groupby(key, as_index=False)[col].agg()] *)
Definition groupby_agg {K} (eqb leb : K -> K -> bool) (key : SaleRecord -> K)
    (col : SaleRecord -> float) (agg : list float -> float)
    (view : list SaleRecord) : list (K * float) :=
  map (fun g => (fst g, agg (map col (snd g)))) (groupby eqb leb key view).

Definition revenue_by_month (view : list SaleRecord) : list (Timestamp * float) :=
  groupby_agg ts_eqb ts_leb month (fun r : SaleRecord => revenue r) group_sum view.

Definition margin_by_category (view : list SaleRecord) : list (string * float) :=
  groupby_agg String.eqb String.leb (fun r : SaleRecord => product_category r) gross_margin group_mean view.

Definition revenue_by_region (view : list SaleRecord) : list (string * float) :=
  groupby_agg String.eqb String.leb (fun r : SaleRecord => region r) (fun r : SaleRecord => revenue r) group_sum view.

(** ** Ranking (lines 172-179) *)

Definition assign_ratios (total : float) (r : SaleRecord) : RankedRow :=
  mkRanked r (revenue r / units r)%float (revenue r / total)%float.

(** [filtered.assign(...).sort_values("revenue", ascending=False).head(limit)] *)
Definition rank (S : Sorter) (view : list SaleRecord) (total : float) (limit : nat)
    : list RankedRow :=
  firstn limit
    (sort_values S (fun r : RankedRow => revenue r) is_nan PrimFloat.ltb false
       (map (assign_ratios total) view)).

Definition default_limit : nat := 15.

(** ** The page (lines 21-240) *)

(** What [main] hands to Streamlit, in call order.  Numbers are carried as
    computed; their formatting is left to the presentation. *)
Inductive Event :=
| Warning (msg : string)
| Metric (label : string) (value : float)
| LineChart (points : list (Timestamp * float))
| BarChart (bars : list (string * float))
| Sunburst (rows : list SaleRecord) (midpoint : float)
| Dataframe (rows : list RankedRow)
| SuccessBox (best_region : string * float)
| InfoBox (worst_region : string * float)
| TextLine (top_margin : string * float).

Inductive Exn := IndexError.

(** A run of [main]: what was rendered, and the exception that ended it, if
    one did. *)
Record Outcome := mkOutcome {
  rendered : list Event;
  raised : option Exn
}.

Definition no_data_message : string :=
  "No hay datos para la combinación de filtros seleccionada.".

Definition kpi_events (k : KPISummary) : list Event :=
  [ Metric "Ingresos" (total_revenue k);
    Metric "Utilidad" (total_profit k);
    Metric "Unidades vendidas" (total_units k);
    Metric "Descuento medio" (avg_discount k);
    Metric "Margen bruto medio" (avg_gross_margin k) ].

(** [frame.sort_values(col, ascending=False)] on a grouped frame. *)
Definition sort_desc {K} (S : Sorter) (groups : list (K * float)) : list (K * float) :=
  sort_values S snd is_nan PrimFloat.ltb false groups.

(** [main] from the loaded frame and the sidebar's selections. *)
Definition main (S : Sorter) (df : list SaleRecord) (c : Criteria) : Outcome :=
  let filtered := filter_view df c in
  match filtered with
  | [] => mkOutcome [Warning no_data_message] None
  | _ :: _ =>
      let k := summarize filtered in
      let by_month := revenue_by_month filtered in
      let by_category := margin_by_category filtered in
      let by_region := revenue_by_region filtered in
      let ranked := rank S filtered (total_revenue k) default_limit in
      let charts :=
        kpi_events k ++
        [ LineChart by_month; BarChart by_category; BarChart by_region;
          Sunburst filtered (nanmean (map gross_margin filtered));
          Dataframe ranked ] in
      let key_regions := sort_desc S by_region in
      match head key_regions, last key_regions with
      | Some best_region, Some worst_region =>
          let insights := [SuccessBox best_region; InfoBox worst_region] in
          match head (sort_desc S by_category) with
          | Some top_margin =>
              mkOutcome (charts ++ insights ++ [TextLine top_margin]) None
          | None => mkOutcome (charts ++ insights) (Some IndexError)
          end
      | _, _ => mkOutcome charts (Some IndexError)
      end
  end.

(** Whether an event shows an aggregate, a grouping or the ranking. *)
Definition shows_data (e : Event) : bool :=
  match e with
  | Warning _ => false
  | _ => true
  end.

(** ** Two sorters *)

(** Positions paired with their keys. *)
Definition enumerate {K} (ks : list K) : list (nat * K) :=
  combine (seq 0 (length ks)) ks.

(** Insertion of an earlier entry into the sorted later ones, ahead of every
    entry that is not smaller: equal keys keep their order. *)
Fixpoint insert_front {K} (ltb : K -> K -> bool) (p : nat * K) (l : list (nat * K))
    : list (nat * K) :=
  match l with
  | [] => [p]
  | q :: l' => if ltb (snd q) (snd p) then q :: insert_front ltb p l' else p :: l
  end.


(** A stable argsort: what numpy's quicksort does on short arrays, which it
    sorts by insertion. *)
Definition stable_argsort {K} (ltb : K -> K -> bool) (ks : list K) : list nat :=
  map fst (fold_right (insert_front ltb) [] (enumerate ks)).


Definition stable_sorter : Sorter := mkSorter (@stable_argsort).


(** ** Orderings the claims speak of *)



(** Position-key pairs whose keys do not step down. *)
Definition by_key {K} (ltb : K -> K -> bool) (a b : nat * K) : Prop :=
  ltb (snd b) (snd a) = false.


(** Descending with the missing keys last, on the key itself. *)
Definition desc_na_last {A} (by_ : A -> float) (a b : A) : Prop :=
  is_nan (by_ b) = true
  \/ (is_nan (by_ a) = false /\ is_nan (by_ b) = false
      /\ (by_ b <=? by_ a)%float = true).

(** Strictly ascending keys. *)
Definition key_lt {K} (leb : K -> K -> bool) (a b : K) : Prop :=
  leb a b = true /\ leb b a = false.

(** What a grouped frame is held to: its keys strictly ascending, a key for
    exactly the values of the view's key column, and at each key the
    aggregate of the column over the view's rows of that key, in view order. *)
Definition grouped_ascending {K} (eqb leb : K -> K -> bool) (key : SaleRecord -> K)
    (col : SaleRecord -> float) (agg : list float -> float)
    (view : list SaleRecord) (frame : list (K * float)) : Prop :=
  StronglySorted (key_lt leb) (map fst frame)
  /\ (forall k, In k (map fst frame) <-> exists r, In r view /\ key r = k)
  /\ (forall k v, In (k, v) frame ->
        v = agg (map col (List.filter (fun r => eqb (key r) k) view))).

(** ** Sidebar (lines 40-68) *)

(** [Series.min()] and [Series.max()] of the date column; nothing ([NaT]) on an
    empty frame. *)
Definition ts_min (ts : list Timestamp) : option Timestamp :=
  match ts with
  | [] => None
  | t :: ts' => Some (fold_left (fun m x => if ts_ltb x m then x else m) ts' t)
  end.

Definition ts_max (ts : list Timestamp) : option Timestamp :=
  match ts with
  | [] => None
  | t :: ts' => Some (fold_left (fun m x => if ts_ltb m x then x else m) ts' t)
  end.

(** [Series.unique()]: the distinct values in order of first appearance. *)
Fixpoint unique_from {K} (eqb : K -> K -> bool) (seen l : list K) : list K :=
  match l with
  | [] => []
  | x :: l' =>
      if existsb (eqb x) seen then unique_from eqb seen l'
      else x :: unique_from eqb (x :: seen) l'
  end.

Definition unique {K} (eqb : K -> K -> bool) (l : list K) : list K :=
  unique_from eqb [] l.

(** Python's [sorted]: ascending by [<], stable. *)
Definition py_sorted {K} (ltb : K -> K -> bool) (l : list K) : list K :=
  argsorted stable_sorter (fun x => x) ltb l.

(** The options of a multiselect: [sorted(df[col].unique())]. *)
Definition options (col : SaleRecord -> string) (df : list SaleRecord) : list string :=
  py_sorted String.ltb (unique String.eqb (map col df)).

(** ** Insights (lines 219-234) *)

(** [key_regions.iloc[0]], [key_regions.iloc[-1]] and the first row of the
    margins in descending order; nothing where [iloc] is out of bounds. *)
Definition best_region (S : Sorter) (view : list SaleRecord) : option (string * float) :=
  head (sort_desc S (revenue_by_region view)).

Definition worst_region (S : Sorter) (view : list SaleRecord) : option (string * float) :=
  last (sort_desc S (revenue_by_region view)).

Definition top_margin_category (S : Sorter) (view : list SaleRecord)
    : option (string * float) :=
  head (sort_desc S (margin_by_category view)).

(** The charts and the table of a view with rows, in call order. *)
Definition chart_events (S : Sorter) (view : list SaleRecord) : list Event :=
  kpi_events (summarize view) ++
  [ LineChart (revenue_by_month view); BarChart (margin_by_category view);
    BarChart (revenue_by_region view);
    Sunburst view (nanmean (map gross_margin view));
    Dataframe (rank S view (total_revenue (summarize view)) default_limit) ].

(** ** Whole numbers in binary64 *)

(** [n] shifted left by [k] bits. *)
Fixpoint shl (n : positive) (k : nat) : positive :=
  match k with
  | O => n
  | Datatypes.S k' => xO (shl n k')
  end.

(** The binary64 number of sign [s] and magnitude [n], below 2^53: the
    mantissa is [n] shifted to 53 bits. *)
Definition canon (s : bool) (n : positive) : spec_float :=
  S754_finite s (shl n (Z.to_nat (53 - Zpos (digits2_pos n))))
    (Zpos (digits2_pos n) - 53).

(** The binary64 number of a whole number below 2^53 in magnitude. *)
Definition Z2SF (a : Z) : spec_float :=
  match a with
  | Z0 => S754_zero false
  | Zpos n => canon false n
  | Zneg n => canon true n
  end.

Definition signed (s : bool) (n : positive) : Z := if s then Zneg n else Zpos n.

(** The float [x] is the whole number [a], below 2^53 in magnitude. *)
Definition whole (x : float) (a : Z) : Prop :=
  Z.abs a < 2 ^ 53 /\ Prim2SF x = Z2SF a.

(** The whole part of a float's value (0 for what is not a number). *)
Definition int_of (x : float) : Z :=
  match Prim2SF x with
  | S754_finite s m e =>
      if 0 <=? e then signed s m * 2 ^ e else signed s m / 2 ^ (- e)
  | _ => 0
  end.

Definition spec_float_eqb (x y : spec_float) : bool :=
  match x, y with
  | S754_zero s, S754_zero s' => Bool.eqb s s'
  | S754_infinity s, S754_infinity s' => Bool.eqb s s'
  | S754_nan, S754_nan => true
  | S754_finite s m e, S754_finite s' m' e' =>
      Bool.eqb s s' && Pos.eqb m m' && Z.eqb e e'
  | _, _ => false
  end.

(** Whether [x] is a whole number below 2^53 in magnitude (and not -0.0). *)
Definition is_whole (x : float) : bool :=
  (Z.abs (int_of x) <? 2 ^ 53) && spec_float_eqb (Prim2SF x) (Z2SF (int_of x)).

(** The sum of the magnitudes. *)
Definition sum_abs (l : list Z) : Z := fold_right (fun a s => Z.abs a + s) 0 l.

Definition sum_Z (l : list Z) : Z := fold_right Z.add 0 l.

(** [x] is the whole number [a], of magnitude at most [w]. *)
Definition within (x : float) (a w : Z) : Prop := whole x a /\ Z.abs a <= w.

Definition zip_add (ls cs : list Z) : list Z :=
  map (fun p => fst p + snd p) (combine ls cs).

(** The whole parts of a column of the rows. *)
Definition ints {R} (col : R -> float) (rows : list R) : list Z :=
  map (fun r => int_of (col r)) rows.



(** Finite values of the binary64 specification: zeros and numbers. *)
Definition sf_finite (s : spec_float) : bool :=
  match s with
  | S754_zero _ | S754_finite _ _ _ => true
  | S754_infinity _ | S754_nan => false
  end.

(** ** Sample rows *)

Definition sample_row (d : Timestamp) (reg : string) (rev prof un : float) : CsvRow :=
  mkCsv d reg "Retail" "Office" "Paper" rev prof un 0%float.

Definition row_A : CsvRow := sample_row (mkTs 2024 1 15 0) "North" 100 20 10.
Definition row_B : CsvRow := sample_row (mkTs 2024 2 10 0) "South" 200 50 20.
Definition row_C : CsvRow := sample_row (mkTs 2024 3 1 0) "North" 50 5 5.

(** A sale of another category. *)
Definition row_F : CsvRow :=
  mkCsv (mkTs 2024 2 20 0) "South" "Retail" "Furniture" "Chair" 400 40 4 0%float.

(** Two sales of one day and one revenue, told apart by their units. *)
Definition row_T1 : CsvRow := sample_row (mkTs 2024 1 15 0) "North" 100 20 1.
Definition row_T2 : CsvRow := sample_row (mkTs 2024 1 15 0) "North" 100 20 2.

Definition all_of_2024 (regions : list string) : Criteria :=
  mkCriteria (mkTs 2024 1 1 0) (mkTs 2024 12 31 0) regions ["Retail"%string] ["Office"%string].

(** Three sales whose revenues do not add up the same way in every order. *)
Definition rounding_view : list SaleRecord :=
  map derive
    [ sample_row (mkTs 2024 1 15 0) "North" 1e16 1 1;
      sample_row (mkTs 2024 1 16 0) "South" 1 1 1;
      sample_row (mkTs 2024 1 17 0) "South" 1 1 1 ].


(** Ten sales: two without a margin (0/0), eight with a whole margin. *)
Definition margins_view : list SaleRecord :=
  map derive
    [ sample_row (mkTs 2024 1 15 0) "North" 0 0 1;
      sample_row (mkTs 2024 1 16 0) "North" 100 100 1;
      sample_row (mkTs 2024 1 17 0) "North" 50 150 1;
      sample_row (mkTs 2024 1 18 0) "North" 10 20 1;
      sample_row (mkTs 2024 1 19 0) "North" 10 0 1;
      sample_row (mkTs 2024 1 20 0) "North" 20 20 1;
      sample_row (mkTs 2024 1 21 0) "North" 5 10 1;
      sample_row (mkTs 2024 1 22 0) "North" 4 12 1;
      sample_row (mkTs 2024 1 23 0) "North" 0 0 1;
      sample_row (mkTs 2024 1 24 0) "North" 8 8 1 ].

(** The ranked view in full: [rank] with a limit that cuts nothing. *)
Definition rank_all (S : Sorter) (view : list SaleRecord) (total : float)
    : list RankedRow :=
  rank S view total (length view).




(** * Properties *)

(** ** Timestamps are totally ordered *)

Lemma lex_leb_total (a b : list Z) :
  length a = length b -> lex_leb a b = false -> lex_leb b a = true.
Proof.
  revert b. induction a as [|x a IH]; intros [|y b]; simpl; try discriminate.
  intros Hlen H. injection Hlen as Hlen. specialize (IH b Hlen).
  destruct (Z.ltb_spec x y), (Z.ltb_spec y x), (Z.eqb_spec x y), (Z.eqb_spec y x);
    simpl in *; try lia; try discriminate; auto.
Qed.

Lemma lex_leb_trans (a b c : list Z) :
  lex_leb a b = true -> lex_leb b c = true -> lex_leb a c = true.
Proof.
  revert b c. induction a as [|x a IH]; intros [|y b] [|z c]; simpl; try discriminate; auto.
  specialize (IH b c).
  destruct (Z.ltb_spec x y), (Z.ltb_spec y z), (Z.ltb_spec x z),
    (Z.eqb_spec x y), (Z.eqb_spec y z), (Z.eqb_spec x z);
    simpl in *; try lia; try discriminate; auto.
Qed.

Lemma ts_leb_total (a b : Timestamp) : ts_leb a b = false -> ts_leb b a = true.
Proof. apply lex_leb_total. reflexivity. Qed.

Lemma ts_leb_trans (a b c : Timestamp) :
  ts_leb a b = true -> ts_leb b c = true -> ts_leb a c = true.
Proof. apply lex_leb_trans. Qed.

Lemma ts_ltb_asym (a b : Timestamp) : ts_ltb a b = true -> ts_ltb b a = false.
Proof.
  unfold ts_ltb. destruct (ts_leb b a) eqn:E; [discriminate|].
  intros _. now rewrite (ts_leb_total _ _ E).
Qed.

Lemma lex_leb_antisym (a b : list Z) :
  length a = length b -> lex_leb a b = true -> lex_leb b a = true -> a = b.
Proof.
  revert b. induction a as [|x a IH]; intros [|y b]; simpl; try discriminate; auto.
  intros Hlen. injection Hlen as Hlen. specialize (IH b Hlen).
  destruct (Z.ltb_spec x y), (Z.ltb_spec y x), (Z.eqb_spec x y), (Z.eqb_spec y x);
    simpl; try lia; try discriminate.
  intros H1 H2. subst y. f_equal. auto.
Qed.

Lemma ts_leb_antisym (a b : Timestamp) :
  ts_leb a b = true -> ts_leb b a = true -> a = b.
Proof.
  intros H1 H2.
  assert (ts_key a = ts_key b) as E by (apply lex_leb_antisym; auto).
  destruct a, b. unfold ts_key in E. simpl in E. now injection E as -> -> -> ->.
Qed.

(** The month start is the first instant of the row's own month. *)
Lemma to_month_start_le (t : Timestamp) :
  1 <= day t -> 0 <= nanos t -> ts_le (to_month_start t) t.
Proof.
  intros Hd Hn. unfold ts_le, ts_leb, to_month_start. simpl.
  rewrite !Z.eqb_refl, !Z.ltb_irrefl. simpl.
  destruct (Z.ltb_spec 1 (day t)); simpl; [reflexivity|].
  assert (day t = 1) as -> by lia. simpl.
  destruct (Z.ltb_spec 0 (nanos t)); simpl; [reflexivity|].
  assert (nanos t = 0) as -> by lia. reflexivity.
Qed.

(** ** Facts about the filter *)

Lemma isin_spec (x : string) (values : list string) :
  isin x values = true <-> x ∈ values.
Proof.
  unfold isin. rewrite existsb_exists, list_elem_of_In. split.
  - intros (y & Hy & Heq). apply String.eqb_eq in Heq. now subst.
  - intros H. exists x. split; [assumption | apply String.eqb_refl].
Qed.

Lemma mask_spec (c : Criteria) (r : SaleRecord) :
  mask c r = true <->
  ts_le (start_date c) (order_date r) /\ ts_le (order_date r) (end_date c)
  /\ region r ∈ selected_regions c
  /\ customer_segment r ∈ selected_segments c
  /\ product_category r ∈ selected_categories c.
Proof.
  unfold mask, ts_le. rewrite !andb_true_iff, !isin_spec. tauto.
Qed.

Lemma filter_bool_sublist {A} (p : A -> bool) (l : list A) :
  List.filter p l `sublist_of` l.
Proof.
  induction l as [|x l IH]; simpl.
  - constructor.
  - destruct (p x); now constructor.
Qed.

(** C1: a row is in the filtered view exactly when it is a row of the dataset
    whose date lies in the closed range and whose region, segment and category
    are among the selected ones; the view is a subsequence of the dataset, in
    the dataset's order. *)
Theorem filter_view_correct (df : list SaleRecord) (c : Criteria) :
  (forall r : SaleRecord,
      r ∈ filter_view df c <->
      r ∈ df
      /\ ts_le (start_date c) (order_date r) /\ ts_le (order_date r) (end_date c)
      /\ region r ∈ selected_regions c
      /\ customer_segment r ∈ selected_segments c
      /\ product_category r ∈ selected_categories c)
  /\ filter_view df c `sublist_of` df.
Proof.
  split.
  - intros r. unfold filter_view.
    rewrite <- mask_spec, (list_elem_of_In df r), list_elem_of_In.
    apply filter_In.
  - apply filter_bool_sublist.
Qed.

(** C5: with no region selected the view is empty whatever the other
    selections are, and so it is with no segment or no category selected: an
    empty selection matches nothing. *)
Theorem filter_view_allow_list (df : list SaleRecord) (s e : Timestamp)
    (rs ss cs : list string) :
  filter_view df (mkCriteria s e [] ss cs) = []
  /\ filter_view df (mkCriteria s e rs [] cs) = []
  /\ filter_view df (mkCriteria s e rs ss []) = [].
Proof.
  unfold filter_view.
  repeat split; induction df as [|r df IH]; simpl; auto;
    unfold mask at 1; simpl; rewrite ?andb_false_r; simpl; assumption.
Qed.

(** ** Binary64 facts, from the specification of the primitive floats *)

Lemma SFcompare_refl (s : spec_float) : s <> S754_nan -> SFcompare s s = Some Eq.
Proof.
  destruct s as [[]|[]| |[] m e]; simpl; try congruence; intros _;
    rewrite Z.compare_refl; try rewrite Pos.compare_refl; reflexivity.
Qed.

Lemma is_nan_spec (x : float) :
  is_nan x = match Prim2SF x with S754_nan => true | _ => false end.
Proof.
  unfold is_nan. rewrite FloatAxioms.eqb_spec. unfold SFeqb.
  destruct (Prim2SF x) eqn:E; try (rewrite SFcompare_refl by congruence; reflexivity).
  reflexivity.
Qed.

Lemma is_infinity_spec (x : float) :
  is_infinity x = match Prim2SF x with S754_infinity _ => true | _ => false end.
Proof.
  unfold is_infinity. rewrite FloatAxioms.eqb_spec, FloatAxioms.abs_spec.
  change (Prim2SF infinity) with (S754_infinity false).
  destruct (Prim2SF x) as [[]|[]| |[] m e]; reflexivity.
Qed.

Lemma is_finite_spec (x : float) : is_finite x = sf_finite (Prim2SF x).
Proof.
  unfold is_finite. rewrite is_nan_spec, is_infinity_spec.
  destruct (Prim2SF x); reflexivity.
Qed.

Lemma is_zero_spec (x : float) :
  is_zero x = match Prim2SF x with S754_zero _ => true | _ => false end.
Proof.
  unfold is_zero. rewrite FloatAxioms.eqb_spec. change (Prim2SF zero) with (S754_zero false).
  destruct (Prim2SF x) as [[]|[]| |[] m e]; reflexivity.
Qed.

Lemma div_by_zero_not_finite (x z : float) :
  is_zero z = true -> is_finite (x / z) = false.
Proof.
  rewrite is_zero_spec, is_finite_spec, FloatAxioms.div_spec. unfold SF64div.
  destruct (Prim2SF z); try discriminate. intros _.
  destruct (Prim2SF x); reflexivity.
Qed.




Ltac sf_cmp e e' m m' :=
  destruct (Z.compare_spec e e'), (Z.compare_spec e' e);
  cbn [CompOpp]; try congruence; try lia;
  let P := fresh in
  let Q := fresh in
  pose proof (Pos.compare_spec m m') as P; pose proof (Pos.compare_spec m' m) as Q;
  unfold Pos.compare in P, Q; destruct P, Q; cbn [CompOpp]; try congruence; lia.

Lemma float_ltb_asym (a b : float) : (a <? b)%float = true -> (b <? a)%float = false.
Proof.
  rewrite !FloatAxioms.ltb_spec. unfold SFltb.
  destruct (Prim2SF a) as [[]|[]| |[] m e], (Prim2SF b) as [[]|[]| |[] m' e'];
    cbn [SFcompare]; try congruence; sf_cmp e e' m m'.
Qed.

Lemma float_ltb_false_leb (a b : float) :
  is_nan a = false -> is_nan b = false ->
  (a <? b)%float = false -> (b <=? a)%float = true.
Proof.
  rewrite !is_nan_spec, FloatAxioms.ltb_spec, FloatAxioms.leb_spec. unfold SFltb, SFleb.
  destruct (Prim2SF a) as [[]|[]| |[] m e], (Prim2SF b) as [[]|[]| |[] m' e'];
    cbn [SFcompare]; try congruence; intros _ _; sf_cmp e e' m m'.
Qed.


(** ** Whole numbers add and subtract exactly *)

Lemma iter_pos_nat {A} (f : A -> A) (p : positive) (x : A) :
  SpecFloat.iter_pos f p x = @Nat.iter (Pos.to_nat p) A f x.
Proof.
  revert x. induction p as [p IH|p IH|]; intros x; cbn [SpecFloat.iter_pos].
  - rewrite !IH. rewrite Pos2Nat.inj_xI.
    rewrite <- Nat.iter_succ_r, <- Nat.iter_add. f_equal. lia.
  - rewrite !IH. rewrite Pos2Nat.inj_xO, <- Nat.iter_add. f_equal. lia.
  - reflexivity.
Qed.

Lemma digits2_log2 (p : positive) : Zpos (digits2_pos p) = Z.log2 (Zpos p) + 1.
Proof.
  induction p as [p IH|p IH|]; cbn [digits2_pos]; try reflexivity.
  - rewrite Pos2Z.inj_succ, IH.
    change (Zpos p~1) with (2 * Zpos p + 1). rewrite Z.log2_succ_double by lia. lia.
  - rewrite Pos2Z.inj_succ, IH.
    change (Zpos p~0) with (2 * Zpos p). rewrite Z.log2_double by lia. lia.
Qed.

Lemma digits2_shl (n : positive) (k : nat) :
  Zpos (digits2_pos (shl n k)) = Zpos (digits2_pos n) + Z.of_nat k.
Proof.
  induction k as [|k IH]; [simpl; lia|].
  cbn [shl digits2_pos]. rewrite Pos2Z.inj_succ, IH. lia.
Qed.

Lemma shr_exact_nat (k : nat) (q : positive) :
  @Nat.iter k shr_record shr_1 (Build_shr_record (Zpos (shl q k)) false false)
  = Build_shr_record (Zpos q) false false.
Proof.
  revert q. induction k as [|k IH]; intros q; [reflexivity|].
  rewrite Nat.iter_succ_r. cbn [shl shr_1 orb]. apply IH.
Qed.

Lemma shl_add (n : positive) (a b : nat) : shl (shl n a) b = shl n (a + b).
Proof.
  induction b as [|b IH]; [now rewrite Nat.add_0_r|].
  rewrite Nat.add_succ_r. cbn [shl]. now rewrite IH.
Qed.

Lemma pos_iter_xO (n d : positive) : Pos.iter xO n d = shl n (Pos.to_nat d).
Proof.
  rewrite Pos2Nat.inj_iter. generalize (Pos.to_nat d) as k.
  induction k as [|k IH]; simpl; congruence.
Qed.

Lemma shl_Z (n : positive) (k : nat) : Zpos (shl n k) = Zpos n * 2 ^ Z.of_nat k.
Proof.
  induction k as [|k IH]; [simpl; lia|].
  cbn [shl]. rewrite Pos2Z.inj_xO, IH, Nat2Z.inj_succ, Z.pow_succ_r by lia. lia.
Qed.

Lemma round_aux_exact (s : bool) (q : positive) (p : nat) (E : Z) :
  (fexp prec emax) (Zpos (digits2_pos q) + (E + Z.of_nat p)) = E + Z.of_nat p ->
  E + Z.of_nat p <= 971 ->
  binary_round_aux prec emax s (Zpos (shl q p)) E loc_Exact
  = S754_finite s q (E + Z.of_nat p).
Proof.
  intros Hf He. unfold binary_round_aux.
  assert (shr_fexp prec emax (Zpos (shl q p)) E loc_Exact
          = (Build_shr_record (Zpos q) false false, E + Z.of_nat p)) as ->.
  { unfold shr_fexp, Zdigits2. rewrite digits2_shl.
    replace (Zpos (digits2_pos q) + Z.of_nat p + E)
      with (Zpos (digits2_pos q) + (E + Z.of_nat p)) by lia.
    rewrite Hf. replace (E + Z.of_nat p - E) with (Z.of_nat p) by lia.
    unfold shr, shr_record_of_loc. destruct p as [|p].
    - simpl. f_equal. lia.
    - change (Z.of_nat (Datatypes.S p)) with (Zpos (Pos.of_succ_nat p)).
      cbv iota. rewrite iter_pos_nat, SuccNat2Pos.id_succ.
      now rewrite (shr_exact_nat (Datatypes.S p) q). }
  cbn [shr_m loc_of_shr_record round_nearest_even].
  assert (shr_fexp prec emax (Zpos q) (E + Z.of_nat p) loc_Exact
          = (Build_shr_record (Zpos q) false false, E + Z.of_nat p)) as ->.
  { unfold shr_fexp, Zdigits2. rewrite Hf, Z.sub_diag. reflexivity. }
  cbn [shr_m]. change (Z.sub emax prec) with 971.
  destruct (Z.leb_spec (E + Z.of_nat p) 971); [reflexivity | lia].
Qed.

Lemma binary_round_shl (s : bool) (n : positive) (k : nat) :
  Zpos (digits2_pos n) <= 53 ->
  binary_round prec emax s (shl n k) (- Z.of_nat k) = canon s n.
Proof.
  intros Hd. unfold binary_round, canon.
  set (d := Zpos (digits2_pos n)) in *.
  assert (0 < d) as Hd0 by (unfold d; lia).
  rewrite digits2_shl. fold d.
  assert ((fexp prec emax) (d + Z.of_nat k + - Z.of_nat k) = d - 53) as ->.
  { unfold fexp, emin. change prec with 53. change emax with 1024. lia. }
  unfold shl_align.
  destruct (d - 53 - - Z.of_nat k) as [|g|g] eqn:Eg.
  - (* no left shift, right shift by 0: k = 53 - d *)
    replace (- Z.of_nat k) with (d - 53) by lia.
    assert (k = Z.to_nat (53 - d)) as Hk by lia.
    pose proof (round_aux_exact s (shl n k) 0 (d - 53)) as H.
    cbn [shl] in H. cbv beta iota. rewrite H.
    + rewrite Z.add_0_r, Hk. reflexivity.
    + rewrite digits2_shl. fold d. unfold fexp, emin.
      change prec with 53. change emax with 1024. lia.
    + lia.
  - (* right shift by g bits *)
    assert (exists j, k = (Z.to_nat (53 - d) + j)%nat /\ Z.of_nat j = Zpos g) as (j & Hk & Hj).
    { exists (Pos.to_nat g). split; lia. }
    rewrite Hk, <- shl_add. cbv beta iota.
    rewrite (round_aux_exact s (shl n (Z.to_nat (53 - d))) j).
    + f_equal. lia.
    + rewrite digits2_shl. fold d. unfold fexp, emin.
      change prec with 53. change emax with 1024. lia.
    + lia.
  - (* left shift by g bits *)
    rewrite pos_iter_xO, shl_add. cbv beta iota.
    pose proof (round_aux_exact s (shl n (k + Pos.to_nat g)) 0 (d - 53)) as H.
    cbn [shl] in H. rewrite H.
    + rewrite Z.add_0_r. f_equal. f_equal. lia.
    + rewrite digits2_shl. fold d. unfold fexp, emin.
      change prec with 53. change emax with 1024. lia.
    + lia.
Qed.

Lemma digits2_le_53 (n : positive) : Zpos n < 2 ^ 53 -> Zpos (digits2_pos n) <= 53.
Proof.
  intros H. rewrite digits2_log2.
  assert (Z.log2 (Zpos n) < 53) by (apply Z.log2_lt_pow2; lia). lia.
Qed.

Lemma shl_align_canon (n : positive) (ez : Z) :
  Zpos (digits2_pos n) <= 53 -> ez <= Zpos (digits2_pos n) - 53 ->
  fst (shl_align (shl n (Z.to_nat (53 - Zpos (digits2_pos n))))
         (Zpos (digits2_pos n) - 53) ez)
  = shl n (Z.to_nat (- ez)).
Proof.
  intros Hd He. unfold shl_align.
  set (d := Zpos (digits2_pos n)) in *.
  assert (0 < d) by (unfold d; lia).
  destruct (ez - (d - 53)) as [|g|g] eqn:Eg; cbn [fst].
  - f_equal. lia.
  - lia.
  - rewrite pos_iter_xO, shl_add. f_equal. lia.
Qed.

Lemma cond_Zopp_shl (s : bool) (n : positive) (K : nat) :
  cond_Zopp s (Zpos (shl n K)) = signed s n * 2 ^ Z.of_nat K.
Proof.
  rewrite shl_Z. destruct s; cbn [cond_Zopp signed]; [|reflexivity].
  rewrite <- (Pos2Z.opp_pos n). ring.
Qed.

Lemma normalize_shl (c : Z) (K : nat) :
  Z.abs c < 2 ^ 53 ->
  binary_normalize prec emax (c * 2 ^ Z.of_nat K) (- Z.of_nat K) false = Z2SF c.
Proof.
  intros Hc. destruct c as [|p|p].
  - reflexivity.
  - replace (Zpos p * 2 ^ Z.of_nat K) with (Zpos (shl p K)) by apply shl_Z.
    cbn [binary_normalize Z2SF]. apply binary_round_shl, digits2_le_53. lia.
  - replace (Zneg p * 2 ^ Z.of_nat K) with (Zneg (shl p K)).
    2:{ rewrite <- !Pos2Z.opp_pos, shl_Z. ring. }
    cbn [binary_normalize Z2SF]. apply binary_round_shl, digits2_le_53. lia.
Qed.

Lemma Z2SF_finite (s : bool) (n : positive) :
  Z2SF (signed s n) = canon s n.
Proof. now destruct s. Qed.

Lemma SFadd_canon (sa sb : bool) (na nb : positive) :
  Zpos na < 2 ^ 53 -> Zpos nb < 2 ^ 53 -> Z.abs (signed sa na + signed sb nb) < 2 ^ 53 ->
  SF64add (canon sa na) (canon sb nb) = Z2SF (signed sa na + signed sb nb).
Proof.
  intros Ha Hb Hab. unfold SF64add, SFadd, canon.
  pose proof (digits2_le_53 na Ha) as Hda. pose proof (digits2_le_53 nb Hb) as Hdb.
  cbv zeta.
  rewrite !shl_align_canon; try assumption; try apply Z.le_min_l; try apply Z.le_min_r.
  rewrite !cond_Zopp_shl, <- Z.mul_add_distr_r.
  set (K := Z.to_nat (- Z.min (Zpos (digits2_pos na) - 53) (Zpos (digits2_pos nb) - 53))).
  replace (Z.min (Zpos (digits2_pos na) - 53) (Zpos (digits2_pos nb) - 53))
    with (- Z.of_nat K).
  2:{ unfold K. clear -Hda Hdb. revert Hda Hdb.
      generalize (Zpos (digits2_pos na)) (Zpos (digits2_pos nb)). intros x y Hx Hy.
      destruct (Z.min_spec (x - 53) (y - 53)) as [[? E]|[? E]]; rewrite E; lia. }
  now apply normalize_shl.
Qed.

Lemma SFadd_exact (a b : Z) :
  Z.abs a < 2 ^ 53 -> Z.abs b < 2 ^ 53 -> Z.abs (a + b) < 2 ^ 53 ->
  SF64add (Z2SF a) (Z2SF b) = Z2SF (a + b).
Proof.
  intros Ha Hb Hab. destruct a as [|na|na], b as [|nb|nb]; try reflexivity.
  - apply (SFadd_canon false false); cbn [signed]; lia.
  - apply (SFadd_canon false true); cbn [signed]; lia.
  - apply (SFadd_canon true false); cbn [signed]; lia.
  - apply (SFadd_canon true true); cbn [signed]; lia.
Qed.

Lemma SFsub_canon (sa sb : bool) (na nb : positive) :
  Zpos na < 2 ^ 53 -> Zpos nb < 2 ^ 53 -> Z.abs (signed sa na - signed sb nb) < 2 ^ 53 ->
  SF64sub (canon sa na) (canon sb nb) = Z2SF (signed sa na - signed sb nb).
Proof.
  intros Ha Hb Hab. unfold SF64sub, SFsub, canon.
  pose proof (digits2_le_53 na Ha) as Hda. pose proof (digits2_le_53 nb Hb) as Hdb.
  cbv zeta.
  rewrite !shl_align_canon; try assumption; try apply Z.le_min_l; try apply Z.le_min_r.
  rewrite !cond_Zopp_shl, <- Z.mul_sub_distr_r.
  set (K := Z.to_nat (- Z.min (Zpos (digits2_pos na) - 53) (Zpos (digits2_pos nb) - 53))).
  replace (Z.min (Zpos (digits2_pos na) - 53) (Zpos (digits2_pos nb) - 53))
    with (- Z.of_nat K).
  2:{ unfold K. clear -Hda Hdb. revert Hda Hdb.
      generalize (Zpos (digits2_pos na)) (Zpos (digits2_pos nb)). intros x y Hx Hy.
      destruct (Z.min_spec (x - 53) (y - 53)) as [[? E]|[? E]]; rewrite E; lia. }
  now apply normalize_shl.
Qed.

Lemma SFsub_exact (a b : Z) :
  Z.abs a < 2 ^ 53 -> Z.abs b < 2 ^ 53 -> Z.abs (a - b) < 2 ^ 53 ->
  SF64sub (Z2SF a) (Z2SF b) = Z2SF (a - b).
Proof.
  intros Ha Hb Hab. destruct a as [|na|na], b as [|nb|nb]; try reflexivity.
  - apply (SFsub_canon false false); cbn [signed]; lia.
  - apply (SFsub_canon false true); cbn [signed]; lia.
  - apply (SFsub_canon true false); cbn [signed]; lia.
  - apply (SFsub_canon true true); cbn [signed]; lia.
Qed.

Lemma add_whole (x y : float) (a b : Z) :
  whole x a -> whole y b -> Z.abs (a + b) < 2 ^ 53 -> whole (x + y) (a + b).
Proof.
  intros [Ha Hx] [Hb Hy] Hab. split; [exact Hab|].
  rewrite FloatAxioms.add_spec, Hx, Hy. now apply SFadd_exact.
Qed.

Lemma sub_whole (x y : float) (a b : Z) :
  whole x a -> whole y b -> Z.abs (a - b) < 2 ^ 53 -> whole (x - y) (a - b).
Proof.
  intros [Ha Hx] [Hb Hy] Hab. split; [exact Hab|].
  rewrite FloatAxioms.sub_spec, Hx, Hy. now apply SFsub_exact.
Qed.

Lemma neg_zero_add_whole (x : float) (a : Z) : whole x a -> whole (-0 + x) a.
Proof.
  intros [Ha Hx]. split; [exact Ha|].
  rewrite FloatAxioms.add_spec, Hx. change (Prim2SF (-0)) with (S754_zero true).
  destruct a; reflexivity.
Qed.

Lemma whole_inj (x y : float) (a : Z) : whole x a -> whole y a -> x = y.
Proof. intros [_ Hx] [_ Hy]. apply Prim2SF_inj. congruence. Qed.

(** ** Sorted lists *)

Section SortedFacts.
Context {A : Type} (R : A -> A -> Prop).

Lemma Sorted_snoc_last (l : list A) (x : A) :
  Sorted R l -> (forall a, last l = Some a -> R a x) -> Sorted R (l ++ [x]).
Proof.
  induction 1 as [|a l Hs IH Hhd]; intros Hlast; simpl.
  - repeat constructor.
  - constructor.
    + apply IH. intros b Hb. apply Hlast. destruct l; [discriminate | exact Hb].
    + destruct Hhd as [|b l Hab]; simpl; constructor; [|exact Hab].
      apply Hlast. reflexivity.
Qed.

Lemma Sorted_app_join (l1 l2 : list A) :
  Sorted R l1 -> Sorted R l2 ->
  (forall a b, last l1 = Some a -> head l2 = Some b -> R a b) ->
  Sorted R (l1 ++ l2).
Proof.
  induction 1 as [|a l Hs IH Hhd]; intros H2 Hj; simpl; [exact H2|].
  constructor.
  - apply IH; [exact H2|]. intros x y Hx. apply Hj.
    destruct l; [discriminate | exact Hx].
  - destruct Hhd as [|b l Hab]; simpl; [|constructor; exact Hab].
    destruct l2 as [|y l2]; constructor. apply Hj; reflexivity.
Qed.


Lemma Sorted_weaken (R' : A -> A -> Prop) (l : list A) :
  (forall a b, In a l -> In b l -> R a b -> R' a b) -> Sorted R l -> Sorted R' l.
Proof.
  intros Himp H. induction H as [|a l Hs IH Hhd]; constructor.
  - apply IH. intros x y Hx Hy. apply Himp; now right.
  - destruct Hhd; constructor. apply Himp; simpl; auto.
Qed.
End SortedFacts.

Lemma last_rev_head {A} (l : list A) : last (rev l) = head l.
Proof. destruct l as [|a l]; [reflexivity|]. simpl. apply last_snoc. Qed.

Lemma Sorted_rev_flip {A} (R : A -> A -> Prop) (l : list A) :
  Sorted R l -> Sorted (fun a b => R b a) (rev l).
Proof.
  induction 1 as [|a l Hs IH Hhd]; simpl; [constructor|].
  apply Sorted_snoc_last; [exact IH|].
  intros b Hb. rewrite last_rev_head in Hb.
  destruct Hhd; simpl in Hb; [discriminate|]. now injection Hb as <-.
Qed.

Lemma Sorted_of_map {A B} (f : A -> B) (R : B -> B -> Prop) (l : list A) :
  Sorted R (map f l) -> Sorted (fun a b => R (f a) (f b)) l.
Proof.
  induction l as [|a l IH]; simpl; intros H; [constructor|].
  apply Sorted_inv in H as [Hs Hhd]. constructor; [auto|].
  destruct l; simpl in *; constructor. now apply HdRel_inv in Hhd.
Qed.

(** ** [take] and [sort_values] *)

Lemma take_rows_seq_app {A} (p l : list A) :
  omap (fun i => (p ++ l) !! i) (seq (length p) (length l)) = l.
Proof.
  revert p. induction l as [|x l IH]; intros p; simpl; [reflexivity|].
  rewrite list_lookup_middle by reflexivity. simpl. f_equal.
  specialize (IH (p ++ [x])). rewrite <- app_assoc, length_app in IH. simpl in IH.
  rewrite Nat.add_1_r in IH. exact IH.
Qed.

Lemma take_rows_seq {A} (l : list A) : take_rows (seq 0 (length l)) l = l.
Proof. exact (take_rows_seq_app [] l). Qed.

Lemma take_rows_Permutation {A} (indexer : list nat) (l : list A) :
  Permutation indexer (seq 0 (length l)) -> Permutation (take_rows indexer l) l.
Proof.
  intros H. unfold take_rows. rewrite H.
  change (Permutation (take_rows (seq 0 (length l)) l) l).
  now rewrite take_rows_seq.
Qed.

Lemma map_take_rows {A B} (f : A -> B) (indexer : list nat) (l : list A) :
  map f (take_rows indexer l) = take_rows indexer (map f l).
Proof.
  unfold take_rows. induction indexer as [|i indexer IH]; simpl; [reflexivity|].
  change (map f l) with (f <$> l). rewrite list_lookup_fmap.
  destruct (l !! i); simpl; [f_equal|]; exact IH.
Qed.

Lemma filter_split_Permutation {A} (p : A -> bool) (l : list A) :
  Permutation (List.filter (fun x => negb (p x)) l ++ List.filter p l) l.
Proof.
  induction l as [|x l IH]; simpl; [constructor|].
  destruct (p x); simpl.
  - rewrite <- Permutation_middle. now constructor.
  - now constructor.
Qed.

Section SortValues.
Context {A K : Type} (S : Sorter) (HS : sorter_ok S).
Context (by_ : A -> K) (isna : K -> bool) (ltb : K -> K -> bool).

Local Abbreviation argsorted := (argsorted S by_ ltb).

Lemma argsorted_Permutation (rows : list A) : Permutation (argsorted rows) rows.
Proof.
  apply take_rows_Permutation. destruct (HS K ltb (map by_ rows)) as [Hp _].
  now rewrite length_map in Hp.
Qed.

Lemma argsorted_Sorted (rows : list A) :
  (forall a b, ltb a b = true -> ltb b a = false) ->
  Sorted (fun a b => ltb (by_ b) (by_ a) = false) (argsorted rows).
Proof.
  intros Hasym. apply (Sorted_of_map by_ (fun a b => ltb b a = false)).
  unfold argsorted. rewrite map_take_rows.
  destruct (HS K ltb (map by_ rows)) as [_ Hs]. exact (Hs Hasym).
Qed.

Lemma sort_values_Permutation (ascending : bool) (rows : list A) :
  Permutation (sort_values S by_ isna ltb ascending rows) rows.
Proof.
  unfold sort_values.
  eapply Permutation_trans;
    [|apply (filter_split_Permutation (fun r => isna (by_ r)) rows)].
  apply Permutation_app_tail. destruct ascending.
  - apply argsorted_Permutation.
  - rewrite <- Permutation_rev, argsorted_Permutation. symmetry. apply Permutation_rev.
Qed.

Lemma sort_values_no_na (ascending : bool) (rows : list A) :
  (forall r, In r rows -> isna (by_ r) = false) ->
  sort_values S by_ isna ltb ascending rows
  = if ascending then argsorted rows else rev (argsorted (rev rows)).
Proof.
  intros Hna. unfold sort_values.
  assert (List.filter (fun r => negb (isna (by_ r))) rows = rows) as ->.
  { induction rows as [|r rows IH]; simpl; [reflexivity|].
    rewrite (Hna r) by now left. simpl. f_equal. apply IH.
    intros x Hx. apply Hna. now right. }
  assert (List.filter (fun r => isna (by_ r)) rows = []) as ->.
  { induction rows as [|r rows IH]; simpl; [reflexivity|].
    rewrite (Hna r) by now left. apply IH.
    intros x Hx. apply Hna. now right. }
  rewrite app_nil_r. now destruct ascending.
Qed.

(** Descending: keys never step up among the rows that have one, and the
    rows without a key follow. *)
Lemma sort_values_desc_Sorted (rows : list A) :
  (forall a b, ltb a b = true -> ltb b a = false) ->
  Sorted (fun a b => isna (by_ b) = true
                     \/ (isna (by_ a) = false /\ isna (by_ b) = false
                         /\ ltb (by_ a) (by_ b) = false))
         (sort_values S by_ isna ltb false rows).
Proof.
  intros Hasym. unfold sort_values.
  set (nn := rev (List.filter (fun r => negb (isna (by_ r))) rows)).
  assert (Hnn : forall r, In r (rev (argsorted nn)) -> isna (by_ r) = false).
  { intros r Hr. apply in_rev in Hr.
    apply (Permutation_in _ (argsorted_Permutation nn)) in Hr.
    unfold nn in Hr. apply in_rev, filter_In in Hr as [_ Hr].
    now apply negb_true_iff in Hr. }
  apply Sorted_app_join.
  - apply Sorted_weaken with (R := fun a b => ltb (by_ a) (by_ b) = false).
    + intros a b Ha Hb Hab. right. auto.
    + apply (Sorted_rev_flip (fun a b => ltb (by_ b) (by_ a) = false)).
      now apply argsorted_Sorted.
  - clear. induction rows as [|r rows IH]; simpl; [constructor|].
    destruct (isna (by_ r)) eqn:E; [|exact IH].
    constructor; [exact IH|].
    clear IH. induction rows as [|x rows IH]; simpl; [constructor|].
    destruct (isna (by_ x)) eqn:Ex; [constructor; now left | exact IH].
  - intros a b _ Hb. left.
    assert (In b (List.filter (fun r => isna (by_ r)) rows)) as Hin.
    { destruct (List.filter (fun r => isna (by_ r)) rows); simpl in Hb; [discriminate|].
      injection Hb as ->. now left. }
    now apply filter_In in Hin.
Qed.
End SortValues.

(** ** Both sorters keep the contract *)

Section InsertionSorters.
Context {K : Type} (ltb : K -> K -> bool).

Lemma insert_front_Permutation (p : nat * K) (l : list (nat * K)) :
  Permutation (insert_front ltb p l) (p :: l).
Proof.
  induction l as [|q l IH]; simpl; [reflexivity|].
  destruct (ltb (snd q) (snd p)); [|reflexivity].
  rewrite IH. apply perm_swap.
Qed.


Hypothesis ltb_asym : forall a b, ltb a b = true -> ltb b a = false.

Lemma insert_front_Sorted (p : nat * K) (l : list (nat * K)) :
  Sorted (by_key ltb) l -> Sorted (by_key ltb) (insert_front ltb p l).
Proof.
  induction 1 as [|q l Hs IH Hhd]; simpl; [repeat constructor|].
  destruct (ltb (snd q) (snd p)) eqn:E.
  - constructor; [exact IH|].
    destruct Hhd as [|r l Hqr]; simpl.
    + constructor. unfold by_key. now apply ltb_asym.
    + destruct (ltb (snd r) (snd p)); constructor; [exact Hqr|].
      unfold by_key. now apply ltb_asym.
  - repeat constructor; assumption.
Qed.

End InsertionSorters.

Lemma combine_seq_lookup {K} (pre ks : list K) (p : nat * K) :
  In p (combine (seq (length pre) (length ks)) ks) ->
  (pre ++ ks) !! fst p = Some (snd p).
Proof.
  revert pre. induction ks as [|k ks IH]; intros pre; simpl; [tauto|].
  intros [<- | Hin]; simpl.
  - now apply list_lookup_middle.
  - specialize (IH (pre ++ [k])). rewrite <- app_assoc in IH.
    apply IH. rewrite length_app. simpl. now rewrite Nat.add_1_r.
Qed.

Lemma enumerate_lookup {K} (ks : list K) (p : nat * K) :
  In p (enumerate ks) -> ks !! fst p = Some (snd p).
Proof. exact (combine_seq_lookup [] ks p). Qed.

Lemma enumerate_fst {K} (ks : list K) : map fst (enumerate ks) = seq 0 (length ks).
Proof.
  unfold enumerate. generalize 0%nat. induction ks as [|k ks IH]; intros n; simpl;
    [reflexivity|]. now rewrite IH.
Qed.

Lemma take_keys_of_pairs {K} (ks : list K) (pairs : list (nat * K)) :
  (forall p, In p pairs -> ks !! fst p = Some (snd p)) ->
  omap (fun i => ks !! i) (map fst pairs) = map snd pairs.
Proof.
  induction pairs as [|p pairs IH]; intros H; simpl; [reflexivity|].
  rewrite (H p) by now left. simpl. f_equal. apply IH.
  intros q Hq. apply H. now right.
Qed.

Section SorterContract.
Context {K : Type} (ltb : K -> K -> bool).
Context (ins : (nat * K) -> list (nat * K) -> list (nat * K)).
Hypothesis ins_Permutation : forall p l, Permutation (ins p l) (p :: l).
Hypothesis ins_Sorted :
  (forall a b, ltb a b = true -> ltb b a = false) ->
  forall p l, Sorted (fun a b => ltb (snd b) (snd a) = false) l ->
              Sorted (fun a b => ltb (snd b) (snd a) = false) (ins p l).

Lemma fold_ins_Permutation (l : list (nat * K)) :
  Permutation (fold_right ins [] l) l.
Proof.
  induction l as [|p l IH]; simpl; [constructor|].
  rewrite ins_Permutation. now constructor.
Qed.

Lemma fold_ins_Sorted (l : list (nat * K)) :
  (forall a b, ltb a b = true -> ltb b a = false) ->
  Sorted (fun a b => ltb (snd b) (snd a) = false) (fold_right ins [] l).
Proof.
  intros Hasym. induction l as [|p l IH]; simpl; [constructor|].
  now apply ins_Sorted.
Qed.

Lemma insertion_argsort_ok (ks : list K) :
  Permutation (map fst (fold_right ins [] (enumerate ks))) (seq 0 (length ks))
  /\ ((forall a b, ltb a b = true -> ltb b a = false) ->
      Sorted (fun a b => ltb b a = false)
             (omap (fun i => ks !! i) (map fst (fold_right ins [] (enumerate ks))))).
Proof.
  split.
  - rewrite <- enumerate_fst. apply Permutation_map, fold_ins_Permutation.
  - intros Hasym. rewrite take_keys_of_pairs.
    + apply (Sorted_fmap snd (fun a b => ltb (snd b) (snd a) = false)); [auto|].
      now apply fold_ins_Sorted.
    + intros p Hp. apply enumerate_lookup.
      now apply (Permutation_in _ (fold_ins_Permutation (enumerate ks))).
Qed.
End SorterContract.

Lemma stable_sorter_ok : sorter_ok stable_sorter.
Proof.
  intros K ltb ks. apply (insertion_argsort_ok ltb (insert_front ltb)).
  - apply insert_front_Permutation.
  - intros Hasym p l. now apply insert_front_Sorted.
Qed.


(** ** Loader *)

Lemma ts_ltb_false_le (a b : Timestamp) : ts_ltb b a = false -> ts_le a b.
Proof. unfold ts_ltb, ts_le. now destruct (ts_leb a b). Qed.





(** ** Ranking *)




(** With the stable sorter the same two rows stay in view order. *)
Example rank_stable_sorter_ties :
  map (fun r : RankedRow => units r)
      (rank stable_sorter (map derive [row_T1; row_T2]) 200 default_limit)
  = [1%float; 2%float].
Proof. reflexivity. Qed.

(** ** Grouping *)

Lemma filter_disjoint_or {A} (p q : A -> bool) (l : list A) :
  (forall x, p x = true -> q x = false) ->
  Permutation (List.filter p l ++ List.filter q l) (List.filter (fun x => p x || q x) l).
Proof.
  intros Hpq. induction l as [|x l IH]; simpl; [constructor|].
  destruct (p x) eqn:Hp; simpl.
  - rewrite (Hpq x Hp). now constructor.
  - destruct (q x); [|exact IH].
    rewrite <- Permutation_middle. now constructor.
Qed.

Lemma filter_all {A} (p : A -> bool) (l : list A) :
  (forall x, In x l -> p x = true) -> List.filter p l = l.
Proof.
  induction l as [|x l IH]; intros H; simpl; [reflexivity|].
  rewrite (H x) by now left. f_equal. apply IH. intros y Hy. apply H. now right.
Qed.

Section GroupBy.
Context {K : Type} (eqb leb : K -> K -> bool).
Hypothesis eqb_eq : forall a b, eqb a b = true <-> a = b.
Hypothesis leb_total : forall a b, leb a b = false -> leb b a = true.
Hypothesis leb_antisym : forall a b, leb a b = true -> leb b a = true -> a = b.
Hypothesis leb_trans : forall a b c, leb a b = true -> leb b c = true -> leb a c = true.

Lemma key_lt_trans (a b c : K) :
  key_lt leb a b -> key_lt leb b c -> key_lt leb a c.
Proof.
  intros [Hab Hba] [Hbc Hcb]. split; [eauto|].
  destruct (leb c a) eqn:E; [|reflexivity].
  rewrite (leb_trans _ _ _ E Hab) in Hcb. discriminate.
Qed.

Lemma insert_key_In (k x : K) (keys : list K) :
  In x (insert_key eqb leb k keys) <-> x = k \/ In x keys.
Proof.
  induction keys as [|y keys IH]; simpl; [intuition|].
  destruct (eqb k y) eqn:E.
  - apply eqb_eq in E as ->. simpl. intuition.
  - destruct (leb k y); simpl; [intuition|]. rewrite IH. intuition.
Qed.

Lemma insert_key_sorted (k : K) (keys : list K) :
  StronglySorted (key_lt leb) keys ->
  StronglySorted (key_lt leb) (insert_key eqb leb k keys).
Proof.
  induction 1 as [|y keys Hs IH Hall]; simpl; [repeat constructor|].
  destruct (eqb k y) eqn:E; [now constructor|].
  assert (k <> y) as Hne by (intros Heq; apply eqb_eq in Heq; congruence).
  destruct (leb k y) eqn:L.
  - assert (key_lt leb k y) as Hky.
    { split; [exact L|]. destruct (leb y k) eqn:L'; [|reflexivity].
      exfalso. auto. }
    constructor; [now constructor|]. constructor; [exact Hky|].
    eapply List.Forall_impl; [|exact Hall]. intros z Hz. now apply key_lt_trans with y.
  - constructor; [exact IH|].
    apply List.Forall_forall. intros z Hz. apply insert_key_In in Hz as [-> | Hz].
    + split; [now apply leb_total | exact L].
    + now apply (proj1 (List.Forall_forall _ _) Hall).
Qed.

Lemma group_keys_In (x : K) (ks : list K) :
  In x (group_keys eqb leb ks) <-> In x ks.
Proof.
  induction ks as [|k ks IH]; simpl; [reflexivity|].
  rewrite insert_key_In, IH. intuition.
Qed.

Lemma group_keys_sorted (ks : list K) :
  StronglySorted (key_lt leb) (group_keys eqb leb ks).
Proof.
  induction ks as [|k ks IH]; simpl; [constructor|]. now apply insert_key_sorted.
Qed.

Lemma sorted_keys_NoDup (keys : list K) :
  StronglySorted (key_lt leb) keys -> List.NoDup keys.
Proof.
  induction 1 as [|y keys Hs IH Hall]; constructor; [|exact IH].
  intros Hin. apply (proj1 (List.Forall_forall _ _) Hall) in Hin as [H1 H2]. congruence.
Qed.

Context (key : SaleRecord -> K).

Lemma groups_cover (keys : list K) (view : list SaleRecord) :
  List.NoDup keys ->
  Permutation
    (concat (map (fun k => List.filter (fun r => eqb (key r) k) view) keys))
    (List.filter (fun r => existsb (eqb (key r)) keys) view).
Proof.
  induction 1 as [|k keys Hk Hnd IH]; simpl.
  - induction view; simpl; auto.
  - rewrite IH. apply filter_disjoint_or.
    intros r Hr. apply eqb_eq in Hr. subst k.
    destruct (existsb (eqb (key r)) keys) eqn:E; [|reflexivity].
    apply existsb_exists in E as (y & Hy & Heq). apply eqb_eq in Heq. congruence.
Qed.

(** The groups split the view: every row is in the group of its key, once. *)
Lemma groupby_partition (view : list SaleRecord) :
  Permutation (concat (map snd (groupby eqb leb key view))) view.
Proof.
  unfold groupby. rewrite map_map. simpl.
  rewrite groups_cover by apply sorted_keys_NoDup, group_keys_sorted.
  rewrite filter_all; [reflexivity|].
  intros r Hr. apply existsb_exists. exists (key r). split.
  - apply group_keys_In, in_map, Hr.
  - now apply eqb_eq.
Qed.

Lemma groupby_keys (view : list SaleRecord) :
  map fst (groupby eqb leb key view) = group_keys eqb leb (map key view).
Proof. unfold groupby. rewrite map_map. simpl. apply map_id. Qed.

Lemma groupby_agg_keys (col : SaleRecord -> float) (agg : list float -> float)
    (view : list SaleRecord) :
  map fst (groupby_agg eqb leb key col agg view) = group_keys eqb leb (map key view).
Proof. unfold groupby_agg. rewrite map_map. simpl. apply groupby_keys. Qed.
End GroupBy.

(** ** Group keys are ordered *)

Lemma ascii_compare_lt_trans (x y z : ascii) :
  Ascii.compare x y = Lt -> Ascii.compare y z = Lt -> Ascii.compare x z = Lt.
Proof. unfold Ascii.compare. rewrite !N.compare_lt_iff. lia. Qed.

Lemma string_leb_trans (a b c : string) :
  String.leb a b = true -> String.leb b c = true -> String.leb a c = true.
Proof.
  unfold String.leb. revert b c.
  induction a as [|x a IH]; intros [|y b] [|z c]; simpl; try discriminate; auto.
  specialize (IH b c).
  destruct (Ascii.compare x y) eqn:Exy, (Ascii.compare y z) eqn:Eyz;
    try discriminate; intros H1 H2.
  - apply Ascii.compare_eq_iff in Exy. subst. rewrite Eyz. auto.
  - apply Ascii.compare_eq_iff in Exy. subst. now rewrite Eyz.
  - apply Ascii.compare_eq_iff in Eyz. subst. now rewrite Exy.
  - now rewrite (ascii_compare_lt_trans x y z Exy Eyz).
Qed.

Lemma string_leb_total (a b : string) : String.leb a b = false -> String.leb b a = true.
Proof. intros H. destruct (String.leb_total a b) as [H'|H']; congruence. Qed.

Lemma ts_leb_refl (a : Timestamp) : ts_leb a a = true.
Proof.
  destruct (ts_leb a a) eqn:E; [reflexivity|].
  pose proof (ts_leb_total a a E) as E'. congruence.
Qed.

Lemma ts_eqb_eq (a b : Timestamp) : ts_eqb a b = true <-> a = b.
Proof.
  unfold ts_eqb. rewrite andb_true_iff. split.
  - intros [H1 H2]. now apply ts_leb_antisym.
  - intros ->. split; apply ts_leb_refl.
Qed.

Lemma string_keys_sorted (ks : list string) :
  StronglySorted (key_lt String.leb) (group_keys String.eqb String.leb ks).
Proof.
  apply group_keys_sorted.
  - apply String.eqb_eq.
  - apply string_leb_total.
  - apply String.leb_antisym.
  - apply string_leb_trans.
Qed.

Lemma ts_keys_sorted (ks : list Timestamp) :
  StronglySorted (key_lt ts_leb) (group_keys ts_eqb ts_leb ks).
Proof.
  apply group_keys_sorted.
  - apply ts_eqb_eq.
  - apply ts_leb_total.
  - apply ts_leb_antisym.
  - apply ts_leb_trans.
Qed.

Section GroupedFrames.
Context {K : Type} (eqb leb : K -> K -> bool) (key : SaleRecord -> K).
Hypothesis eqb_eq : forall a b, eqb a b = true <-> a = b.
Hypothesis leb_total : forall a b, leb a b = false -> leb b a = true.
Hypothesis leb_antisym : forall a b, leb a b = true -> leb b a = true -> a = b.
Hypothesis leb_trans : forall a b c, leb a b = true -> leb b c = true -> leb a c = true.

Lemma groupby_agg_ascending (col : SaleRecord -> float) (agg : list float -> float)
    (view : list SaleRecord) :
  grouped_ascending eqb leb key col agg view (groupby_agg eqb leb key col agg view).
Proof.
  unfold grouped_ascending. rewrite groupby_agg_keys. repeat split.
  - now apply group_keys_sorted.
  - intros H. apply (group_keys_In eqb leb eqb_eq), in_map_iff in H as (r & H1 & H2).
    now exists r.
  - intros (r & H1 & H2). apply (group_keys_In eqb leb eqb_eq), in_map_iff. now exists r.
  - intros k v H. unfold groupby_agg, groupby in H. rewrite map_map in H.
    apply in_map_iff in H as (k' & E & _). simpl in E. now injection E as -> <-.
Qed.
End GroupedFrames.

(** C9: the revenue series by month, the margin table by category and the
    revenue table by region each hold one group for exactly the keys of the
    view, in strictly ascending key order whatever the order of first
    appearance, with the aggregate of the view's rows of that key: a view that
    meets South before North lists North first. *)
Theorem grouped_keys_ascending (view : list SaleRecord) :
  grouped_ascending ts_eqb ts_leb month (fun r : SaleRecord => revenue r) group_sum
    view (revenue_by_month view)
  /\ grouped_ascending String.eqb String.leb (fun r : SaleRecord => product_category r)
       gross_margin group_mean view (margin_by_category view)
  /\ grouped_ascending String.eqb String.leb (fun r : SaleRecord => region r)
       (fun r : SaleRecord => revenue r) group_sum view (revenue_by_region view)
  /\ map fst (revenue_by_region (map derive [row_B; row_A])) = ["North"; "South"]%string.
Proof.
  split; [|split; [|split; [|reflexivity]]].
  - apply groupby_agg_ascending.
    + apply ts_eqb_eq.
    + apply ts_leb_total.
    + apply ts_leb_antisym.
    + apply ts_leb_trans.
  - apply groupby_agg_ascending.
    + apply String.eqb_eq.
    + apply string_leb_total.
    + apply String.leb_antisym.
    + apply string_leb_trans.
  - apply groupby_agg_ascending.
    + apply String.eqb_eq.
    + apply string_leb_total.
    + apply String.leb_antisym.
    + apply string_leb_trans.
Qed.

(** ** Sums of whole numbers are exact *)

Lemma within_add (x y : float) (a b w v : Z) :
  within x a w -> within y b v -> w + v < 2 ^ 53 -> within (x + y) (a + b) (w + v).
Proof.
  intros [Hx Ha] [Hy Hb] Hw. split; [|lia]. apply add_whole; auto. lia.
Qed.

Lemma sum_abs_nonneg (l : list Z) : 0 <= sum_abs l.
Proof. induction l; simpl; lia. Qed.

Lemma fold_add_within (xs : list float) (bs : list Z) (acc : float) (a w : Z) :
  Forall2 whole xs bs -> within acc a w -> w + sum_abs bs < 2 ^ 53 ->
  within (fold_left PrimFloat.add xs acc) (a + sum_Z bs) (w + sum_abs bs).
Proof.
  intros H. revert acc a w. induction H as [|x b xs bs Hx _ IH]; intros acc a w Hacc Hw.
  - simpl. rewrite !Z.add_0_r. exact Hacc.
  - simpl in *. 
    replace (a + (b + sum_Z bs)) with ((a + b) + sum_Z bs) by lia.
    replace (w + (Z.abs b + sum_abs bs)) with ((w + Z.abs b) + sum_abs bs) by lia.
    pose proof (sum_abs_nonneg bs).
    apply IH; [|lia]. apply (within_add acc x a b w (Z.abs b)); [exact Hacc| |lia].
    split; [exact Hx|lia].
Qed.

Lemma sum_Z_abs (l : list Z) : Z.abs (sum_Z l) <= sum_abs l.
Proof. induction l; simpl; lia. Qed.

(** fewer than 8 values: one by one from -0.0 *)
Lemma small_sum_within (xs : list float) (bs : list Z) :
  xs <> [] -> Forall2 whole xs bs -> sum_abs bs < 2 ^ 53 ->
  within (fold_left PrimFloat.add xs (-0)%float) (sum_Z bs) (sum_abs bs).
Proof.
  intros Hne H Hw. destruct H as [|x b xs bs Hx H]; [congruence|].
  simpl in *. pose proof (sum_abs_nonneg bs).
  apply (fold_add_within xs bs (-0 + x)%float b (Z.abs b)); auto.
  split; [now apply neg_zero_add_whole | lia].
Qed.

Lemma sum_Z_app (l1 l2 : list Z) : sum_Z (l1 ++ l2) = sum_Z l1 + sum_Z l2.
Proof. induction l1; simpl; lia. Qed.

Lemma sum_abs_app (l1 l2 : list Z) : sum_abs (l1 ++ l2) = sum_abs l1 + sum_abs l2.
Proof. induction l1; simpl; lia. Qed.

Lemma sum_Z_split (n : nat) (l : list Z) : sum_Z l = sum_Z (firstn n l) + sum_Z (skipn n l).
Proof. rewrite <- sum_Z_app, firstn_skipn. reflexivity. Qed.

Lemma sum_abs_split (n : nat) (l : list Z) :
  sum_abs l = sum_abs (firstn n l) + sum_abs (skipn n l).
Proof. rewrite <- sum_abs_app, firstn_skipn. reflexivity. Qed.

Lemma add_lanes_whole (r c : list float) (ls cs : list Z) :
  Forall2 whole r ls -> Forall2 whole c cs -> length c = length r ->
  sum_abs ls + sum_abs cs < 2 ^ 53 ->
  Forall2 whole (add_lanes r c) (zip_add ls cs)
  /\ sum_Z (zip_add ls cs) = sum_Z ls + sum_Z cs
  /\ sum_abs (zip_add ls cs) <= sum_abs ls + sum_abs cs.
Proof.
  intros Hr. revert c cs. induction Hr as [|x l r ls Hx Hr IH]; intros c cs Hc Hlen Hw.
  - destruct Hc; [|discriminate]. simpl. repeat split; [constructor | lia..].
  - destruct Hc as [|y b c cs Hy Hc]; [discriminate|].
    simpl in Hlen, Hw. injection Hlen as Hlen.
    pose proof (sum_abs_nonneg ls). pose proof (sum_abs_nonneg cs).
    destruct (IH c cs Hc Hlen) as (H1 & H2 & H3); [lia|].
    unfold add_lanes, zip_add in *. simpl. repeat split; [|lia..].
    constructor; [|exact H1]. apply add_whole; auto. lia.
Qed.

Lemma Forall2_whole_length (xs : list float) (bs : list Z) :
  Forall2 whole xs bs -> length xs = length bs.
Proof. induction 1; simpl; congruence. Qed.

Lemma Forall2_whole_firstn (n : nat) (xs : list float) (bs : list Z) :
  Forall2 whole xs bs -> Forall2 whole (firstn n xs) (firstn n bs).
Proof.
  intros H. revert n. induction H; intros [|n]; simpl; constructor; auto.
Qed.

Lemma Forall2_whole_skipn (n : nat) (xs : list float) (bs : list Z) :
  Forall2 whole xs bs -> Forall2 whole (skipn n xs) (skipn n bs).
Proof.
  intros H. revert n. induction H; intros [|n]; simpl; try constructor; auto.
Qed.

Lemma accumulate8_whole (fuel : nat) :
  forall (r ys : list float) (ls cs : list Z) (q : nat),
    Forall2 whole r ls -> length r = 8%nat ->
    Forall2 whole ys cs -> length ys = (8 * q)%nat -> (q <= fuel)%nat ->
    sum_abs ls + sum_abs cs < 2 ^ 53 ->
    exists ls', Forall2 whole (accumulate8 fuel r ys) ls'
                /\ length ls' = 8%nat
                /\ sum_Z ls' = sum_Z ls + sum_Z cs
                /\ sum_abs ls' <= sum_abs ls + sum_abs cs.
Proof.
  induction fuel as [|fuel IH]; intros r ys ls cs q Hr Hlr Hys Hlen Hq Hw.
  - assert (q = 0%nat) as -> by lia. destruct Hys; [|discriminate].
    exists ls. simpl. rewrite <- (Forall2_whole_length _ _ Hr). repeat split; auto; lia.
  - destruct ys as [|y ys'].
    + inversion Hys; subst. exists ls. simpl.
      rewrite <- (Forall2_whole_length _ _ Hr). repeat split; auto; lia.
    + change (accumulate8 (Datatypes.S fuel) r (y :: ys'))
        with (accumulate8 fuel (add_lanes r (firstn 8 (y :: ys'))) (skipn 8 (y :: ys'))).
      destruct q as [|q]; [simpl in Hlen; lia|].
      remember (y :: ys') as ys eqn:Ey. clear Ey y ys'.
      pose proof (sum_abs_split 8 cs) as Hs. pose proof (sum_Z_split 8 cs) as Hz.
      pose proof (sum_abs_nonneg (firstn 8 cs)). pose proof (sum_abs_nonneg (skipn 8 cs)).
      destruct (add_lanes_whole r (firstn 8 ys) ls (firstn 8 cs)) as (H1 & H2 & H3);
        auto using Forall2_whole_firstn.
      { rewrite length_firstn. lia. }
      { lia. }
      destruct (IH (add_lanes r (firstn 8 ys)) (skipn 8 ys) (zip_add ls (firstn 8 cs))
                  (skipn 8 cs) q) as (ls' & G1 & G2 & G3 & G4);
        auto using Forall2_whole_skipn.
      { rewrite (Forall2_whole_length _ _ H1). unfold zip_add.
        rewrite length_map, length_combine, length_firstn.
        rewrite <- (Forall2_whole_length _ _ Hr), <- (Forall2_whole_length _ _ Hys). lia. }
      { rewrite length_skipn. lia. }
      { lia. }
      { lia. }
      exists ls'. repeat split; auto; lia.
Qed.

Lemma tree8_within (r : list float) (ls : list Z) :
  Forall2 whole r ls -> length r = 8%nat -> sum_abs ls < 2 ^ 53 ->
  within (tree8 r) (sum_Z ls) (sum_abs ls).
Proof.
  intros H Hlen Hw.
  destruct H as [|x0 a0 ? ? H0 H]; [discriminate|].
  destruct H as [|x1 a1 ? ? H1 H]; [discriminate|].
  destruct H as [|x2 a2 ? ? H2 H]; [discriminate|].
  destruct H as [|x3 a3 ? ? H3 H]; [discriminate|].
  destruct H as [|x4 a4 ? ? H4 H]; [discriminate|].
  destruct H as [|x5 a5 ? ? H5 H]; [discriminate|].
  destruct H as [|x6 a6 ? ? H6 H]; [discriminate|].
  destruct H as [|x7 a7 ? ? H7 H]; [discriminate|].
  destruct H; [|discriminate]. cbn [tree8 sum_Z sum_abs fold_right] in *.
  assert (forall x a, whole x a -> within x a (Z.abs a)) as W by (intros; split; auto; lia).
  replace (a0 + (a1 + (a2 + (a3 + (a4 + (a5 + (a6 + (a7 + 0))))))))
    with (((a0 + a1) + (a2 + a3)) + ((a4 + a5) + (a6 + a7))) by lia.
  replace (Z.abs a0 + (Z.abs a1 + (Z.abs a2 + (Z.abs a3 + (Z.abs a4 + (Z.abs a5
             + (Z.abs a6 + (Z.abs a7 + 0))))))))
    with (((Z.abs a0 + Z.abs a1) + (Z.abs a2 + Z.abs a3))
          + ((Z.abs a4 + Z.abs a5) + (Z.abs a6 + Z.abs a7))) in * by lia.
  repeat (apply within_add; [| |lia]); auto.
Qed.

Lemma block_sum_within (xs : list float) (bs : list Z) :
  Forall2 whole xs bs -> (8 <= length xs)%nat -> sum_abs bs < 2 ^ 53 ->
  within (block_sum xs) (sum_Z bs) (sum_abs bs).
Proof.
  intros H Hlen Hw. unfold block_sum.
  set (rest := skipn 8 xs). set (n := (length rest / 8 * 8)%nat).
  pose proof (Forall2_whole_length _ _ H) as Hl.
  pose proof (sum_abs_split 8 bs) as S1. pose proof (sum_Z_split 8 bs) as Z1.
  pose proof (sum_abs_split n (skipn 8 bs)) as S2.
  pose proof (sum_Z_split n (skipn 8 bs)) as Z2.
  pose proof (sum_abs_nonneg (firstn 8 bs)).
  pose proof (sum_abs_nonneg (firstn n (skipn 8 bs))).
  pose proof (sum_abs_nonneg (skipn n (skipn 8 bs))).
  assert (n <= length rest)%nat as Hn.
  { unfold n. pose proof (Nat.div_mod_eq (length rest) 8). lia. }
  destruct (accumulate8_whole (length rest) (firstn 8 xs) (firstn n rest)
              (firstn 8 bs) (firstn n (skipn 8 bs)) (length rest / 8))
    as (ls' & G1 & G2 & G3 & G4).
  - now apply Forall2_whole_firstn.
  - rewrite length_firstn. lia.
  - unfold rest. now apply Forall2_whole_firstn, Forall2_whole_skipn.
  - rewrite length_firstn. unfold n. unfold n in Hn. lia.
  - pose proof (Nat.div_mod_eq (length rest) 8). lia.
  - lia.
  - rewrite Z1, Z2, S1, S2.
    replace (sum_Z (firstn 8 bs) + (sum_Z (firstn n (skipn 8 bs)) + sum_Z (skipn n (skipn 8 bs))))
      with (sum_Z ls' + sum_Z (skipn n (skipn 8 bs))) by lia.
    assert (within (tree8 (accumulate8 (length rest) (firstn 8 xs) (firstn n rest)))
              (sum_Z ls') (sum_abs ls')) as Ht.
    { apply tree8_within; auto; [|lia].
      rewrite (Forall2_whole_length _ _ G1). exact G2. }
    destruct (fold_add_within (skipn n rest) (skipn n (skipn 8 bs)) _ _ _
                (Forall2_whole_skipn n _ _ (Forall2_whole_skipn 8 _ _ H)) Ht) as [F1 F2];
      [lia|].
    split; [exact F1 | lia].
Qed.

Lemma pairwise_sum_fuel_within (fuel : nat) :
  forall (xs : list float) (bs : list Z),
    xs <> [] -> Forall2 whole xs bs -> sum_abs bs < 2 ^ 53 ->
    within (pairwise_sum_fuel fuel xs) (sum_Z bs) (sum_abs bs).
Proof.
  induction fuel as [|fuel IH]; intros xs bs Hne H Hw; cbn [pairwise_sum_fuel];
    destruct (Nat.ltb_spec (length xs) 8); try (now apply small_sum_within);
    destruct (Nat.leb_spec (length xs) 128); try (now apply block_sum_within).
  set (n2 := (length xs / 2 - (length xs / 2) mod 8)%nat).
  assert (0 < n2 < length xs)%nat as Hn2.
  { unfold n2. pose proof (Nat.div_mod_eq (length xs) 2).
    pose proof (Nat.mod_upper_bound (length xs) 2).
    pose proof (Nat.mod_upper_bound (length xs / 2) 8). lia. }
  rewrite (sum_Z_split n2 bs), (sum_abs_split n2 bs).
  pose proof (sum_abs_split n2 bs).
  pose proof (sum_abs_nonneg (firstn n2 bs)). pose proof (sum_abs_nonneg (skipn n2 bs)).
  apply within_add; [apply IH|apply IH|lia];
    auto using Forall2_whole_firstn, Forall2_whole_skipn; try lia.
  - intros E. apply (f_equal (@length _)) in E. rewrite length_firstn in E. simpl in E. lia.
  - intros E. apply (f_equal (@length _)) in E. rewrite length_skipn in E. simpl in E. lia.
Qed.

Lemma whole_not_nan (x : float) (a : Z) : whole x a -> is_nan x = false.
Proof.
  intros [_ H]. rewrite is_nan_spec, H. destruct a; reflexivity.
Qed.

Lemma whole_fill0 (xs : list float) (bs : list Z) :
  Forall2 whole xs bs -> map fill0 xs = xs.
Proof.
  induction 1 as [|x b xs bs Hx _ IH]; simpl; [reflexivity|].
  unfold fill0 at 1. rewrite (whole_not_nan x b Hx). now rewrite IH.
Qed.

Lemma whole_notna (xs : list float) (bs : list Z) :
  Forall2 whole xs bs -> notna xs = xs.
Proof.
  unfold notna. induction 1 as [|x b xs bs Hx _ IH]; simpl; [reflexivity|].
  rewrite (whole_not_nan x b Hx). simpl. now rewrite IH.
Qed.

Lemma whole_zero : whole 0%float 0.
Proof. split; [reflexivity|reflexivity]. Qed.

(** [Series.sum()] of whole numbers is their sum. *)
Lemma nansum_whole (xs : list float) (bs : list Z) :
  Forall2 whole xs bs -> sum_abs bs < 2 ^ 53 -> whole (nansum xs) (sum_Z bs).
Proof.
  intros H Hw. unfold nansum. destruct xs as [|x xs].
  - inversion H; subst. exact whole_zero.
  - rewrite (whole_fill0 _ _ H). unfold pairwise_sum.
    apply pairwise_sum_fuel_within; auto; discriminate.
Qed.

Lemma kahan_step_whole (sumx comp val : float) (s v w : Z) :
  within sumx s w -> Prim2SF comp = S754_zero false -> whole val v ->
  w + Z.abs v < 2 ^ 53 ->
  within (fst (kahan_step (sumx, comp) val)) (s + v) (w + Z.abs v)
  /\ Prim2SF (snd (kahan_step (sumx, comp) val)) = S754_zero false.
Proof.
  intros [Hs Hsw] Hc Hv Hw. unfold kahan_step. cbv zeta. cbn [fst snd].
  assert (whole comp 0) as Hc0 by (split; [reflexivity | exact Hc]).
  assert (whole (val - comp) v) as Hy.
  { replace v with (v - 0) by lia. apply sub_whole; auto.
    destruct Hv. lia. }
  assert (whole (sumx + (val - comp)) (s + v)) as Ht by (apply add_whole; auto; lia).
  assert (whole (sumx + (val - comp) - sumx - (val - comp)) 0) as Hz.
  { replace 0 with (s + v - s - v) by lia.
    apply sub_whole; auto; [apply sub_whole; auto|]; destruct Hv; lia. }
  split; [split; [exact Ht | lia]|].
  rewrite (whole_not_nan _ _ Hz). now destruct Hz.
Qed.

(** The compensated sum of whole numbers is their sum. *)
Lemma group_sum_whole (xs : list float) (bs : list Z) :
  Forall2 whole xs bs -> sum_abs bs < 2 ^ 53 -> whole (group_sum xs) (sum_Z bs).
Proof.
  intros H Hw. unfold group_sum. rewrite (whole_notna _ _ H).
  assert (forall st s w,
             within (fst st) s w -> Prim2SF (snd st) = S754_zero false ->
             w + sum_abs bs < 2 ^ 53 ->
             within (fst (fold_left kahan_step xs st)) (s + sum_Z bs) (w + sum_abs bs)) as G.
  { clear Hw. induction H as [|x b xs bs Hx _ IH]; intros [sumx comp] s w Hs Hc Hw.
    - simpl. rewrite !Z.add_0_r. exact Hs.
    - cbn [fold_left].
      change (sum_abs (b :: bs)) with (Z.abs b + sum_abs bs) in *.
      change (sum_Z (b :: bs)) with (b + sum_Z bs).
      pose proof (sum_abs_nonneg bs).
      destruct (kahan_step_whole sumx comp x s b w Hs Hc Hx) as [K1 K2]; [lia|].
      replace (s + (b + sum_Z bs)) with ((s + b) + sum_Z bs) by lia.
      replace (w + (Z.abs b + sum_abs bs)) with ((w + Z.abs b) + sum_abs bs) by lia.
      apply IH; auto. lia. }
  destruct (G (0%float, 0%float) 0 0) as [G1 _]; auto.
  split; [exact whole_zero | simpl; lia].
Qed.

Lemma spec_float_eqb_eq (x y : spec_float) : spec_float_eqb x y = true -> x = y.
Proof.
  destruct x as [s|s| |s m e], y as [s'|s'| |s' m' e']; simpl; try discriminate; auto.
  - intros H. apply eqb_prop in H. now subst.
  - intros H. apply eqb_prop in H. now subst.
  - rewrite !andb_true_iff. intros [[H1 H2] H3].
    apply eqb_prop in H1. apply Pos.eqb_eq in H2. apply Z.eqb_eq in H3. now subst.
Qed.

Lemma is_whole_spec (x : float) : is_whole x = true -> whole x (int_of x).
Proof.
  unfold is_whole. rewrite andb_true_iff. intros [H1 H2]. split.
  - now apply Z.ltb_lt.
  - now apply spec_float_eqb_eq.
Qed.

Lemma is_whole_all (xs : list float) :
  Forall (fun x => is_whole x = true) xs -> Forall2 whole xs (map int_of xs).
Proof.
  induction 1 as [|x xs Hx _ IH]; simpl; constructor; auto using is_whole_spec.
Qed.

Lemma sum_Z_Permutation (l1 l2 : list Z) : Permutation l1 l2 -> sum_Z l1 = sum_Z l2.
Proof. induction 1; simpl; lia. Qed.

Lemma sum_abs_Permutation (l1 l2 : list Z) : Permutation l1 l2 -> sum_abs l1 = sum_abs l2.
Proof. induction 1; simpl; lia. Qed.

Section GroupedWhole.
Context {R : Type} (col : R -> float).

Local Abbreviation ints := (ints col).

Lemma rows_whole (rows : list R) :
  Forall (fun r => is_whole (col r) = true) rows -> Forall2 whole (map col rows) (ints rows).
Proof.
  intros H. unfold ints. rewrite <- (map_map col int_of). apply is_whole_all.
  now apply Forall_map.
Qed.

Lemma ints_app (a b : list R) : ints (a ++ b) = ints a ++ ints b.
Proof. apply map_app. Qed.

Lemma grouped_sums_whole (groups : list (list R)) :
  Forall (fun r => is_whole (col r) = true) (concat groups) ->
  sum_abs (ints (concat groups)) < 2 ^ 53 ->
  Forall2 whole (map (fun rows => group_sum (map col rows)) groups)
          (map (fun rows => sum_Z (ints rows)) groups)
  /\ sum_Z (map (fun rows => sum_Z (ints rows)) groups) = sum_Z (ints (concat groups))
  /\ sum_abs (map (fun rows => sum_Z (ints rows)) groups) <= sum_abs (ints (concat groups)).
Proof.
  induction groups as [|g groups IH]; intros Hall Hw.
  - simpl. repeat split; [constructor | lia].
  - cbn [concat] in *. apply Forall_app in Hall as [Hg Hrest].
    rewrite ints_app, sum_abs_app in Hw. rewrite ints_app, sum_abs_app, sum_Z_app.
    pose proof (sum_abs_nonneg (ints g)). pose proof (sum_abs_nonneg (ints (concat groups))).
    destruct IH as (I1 & I2 & I3); auto; [lia|].
    pose proof (sum_Z_abs (ints g)).
    cbn [map].
    change (sum_Z (sum_Z (ints g) :: ?l)) with (sum_Z (ints g) + sum_Z l).
    change (sum_abs (sum_Z (ints g) :: ?l)) with (Z.abs (sum_Z (ints g)) + sum_abs l).
    repeat split; [|lia..].
    constructor; [|exact I1]. apply group_sum_whole; [now apply rows_whole | lia].
Qed.
End GroupedWhole.

(** ** Group sums and the total *)

Section ExactSums.
Context {V : Type} (add : V -> V -> V) (zero : V).
Hypothesis add_assoc : forall a b c, add a (add b c) = add (add a b) c.
Hypothesis add_comm : forall a b, add a b = add b a.
Hypothesis add_zero_l : forall a, add zero a = a.

Lemma sum_app (xs ys : list V) :
  fold_right add zero (xs ++ ys) = add (fold_right add zero xs) (fold_right add zero ys).
Proof.
  induction xs as [|x xs IH]; simpl; [now rewrite add_zero_l|].
  now rewrite IH, add_assoc.
Qed.

Lemma sum_concat (ls : list (list V)) :
  fold_right add zero (concat ls) = fold_right add zero (map (fold_right add zero) ls).
Proof.
  induction ls as [|l ls IH]; simpl; [reflexivity|]. now rewrite sum_app, IH.
Qed.

Lemma sum_Permutation (xs ys : list V) :
  Permutation xs ys -> fold_right add zero xs = fold_right add zero ys.
Proof.
  induction 1 as [|x xs ys _ IH|x y xs|xs ys zs _ IH1 _ IH2]; simpl.
  - reflexivity.
  - now rewrite IH.
  - now rewrite !add_assoc, (add_comm y x).
  - now rewrite IH1.
Qed.

(** Summed group by group or over the view, an exact sum is the same. *)
Lemma groupby_exact_sum {K} (eqb leb : K -> K -> bool) (key : SaleRecord -> K)
    (col : SaleRecord -> V) (view : list SaleRecord) :
  Permutation (concat (map snd (groupby eqb leb key view))) view ->
  fold_right add zero
    (map (fun g => fold_right add zero (map col (snd g))) (groupby eqb leb key view))
  = fold_right add zero (map col view).
Proof.
  intros Hp. rewrite <- (sum_Permutation _ _ (Permutation_map col Hp)).
  rewrite concat_map, sum_concat, !map_map. reflexivity.
Qed.
End ExactSums.

Lemma region_groups_partition (view : list SaleRecord) :
  Permutation
    (concat (map snd (groupby String.eqb String.leb (fun r : SaleRecord => region r) view)))
    view.
Proof.
  apply groupby_partition.
  - apply String.eqb_eq.
  - apply string_leb_total.
  - apply String.leb_antisym.
  - apply string_leb_trans.
Qed.

Lemma ints_map {R} (col : R -> float) (rows : list R) :
  ints col rows = map int_of (map col rows).
Proof. unfold ints. now rewrite map_map. Qed.

(** C4, as the code has it: [groupby("region")] splits the view, every row in
    exactly one group.  When the revenues are whole numbers whose magnitudes
    add up to less than 2^53, every binary64 addition of the total and of the
    groups is exact: [total_revenue] is the sum of the revenues and the
    revenues of the regions add up to it.  Other revenues round. *)
Theorem revenue_by_region_total (view : list SaleRecord) :
  let groups := groupby String.eqb String.leb (fun r : SaleRecord => region r) view in
  let revenues := map (fun r : SaleRecord => revenue r) view in
  Permutation (concat (map snd groups)) view
  /\ (Forall (fun x => is_whole x = true) revenues ->
      sum_abs (map int_of revenues) < 2 ^ 53 ->
      whole (total_revenue (summarize view)) (sum_Z (map int_of revenues))
      /\ nansum (map snd (revenue_by_region view)) = total_revenue (summarize view)).
Proof.
  cbv zeta. pose proof (region_groups_partition view) as Hp. split; [exact Hp|].
  intros Hall Hw.
  set (col := fun r : SaleRecord => revenue r) in *.
  assert (whole (nansum (map col view)) (sum_Z (map int_of (map col view)))) as Ht.
  { apply nansum_whole; [now apply is_whole_all | exact Hw]. }
  split; [exact Ht|].
  apply (whole_inj _ _ (sum_Z (map int_of (map col view)))); [|exact Ht].
  set (groups := groupby String.eqb String.leb (fun r : SaleRecord => region r) view) in *.
  destruct (grouped_sums_whole col (map snd groups)) as (G1 & G2 & G3).
  - apply List.Forall_forall. intros r Hr.
    apply (Permutation_in _ Hp) in Hr.
    rewrite List.Forall_forall in Hall. apply Hall. now apply (in_map col).
  - rewrite (sum_abs_Permutation _ (ints col view)).
    + now rewrite ints_map.
    + unfold ints. now apply Permutation_map.
  - assert (map snd (revenue_by_region view)
            = map (fun rows => group_sum (map col rows)) (map snd groups)) as ->.
    { unfold revenue_by_region, groupby_agg. fold groups. now rewrite !map_map. }
    rewrite <- ints_map, <- (sum_Z_Permutation (ints col (concat (map snd groups)))).
    2:{ unfold ints. now apply Permutation_map. }
    rewrite <- G2. apply nansum_whole; [exact G1|].
    assert (sum_abs (ints col (concat (map snd groups)))
            = sum_abs (map int_of (map col view))) as E.
    { rewrite <- ints_map. apply sum_abs_Permutation. unfold ints.
      now apply Permutation_map. }
    lia.
Qed.

Lemma revenue_by_region_total_witness :
  nansum (map snd (revenue_by_region (map derive [row_A; row_B; row_C])))
  = total_revenue (summarize (map derive [row_A; row_B; row_C])).
Proof.
  apply (revenue_by_region_total (map derive [row_A; row_B; row_C])).
  - repeat constructor.
  - reflexivity.
Defined.

Lemma float_neq_by (c x y : float) :
  PrimFloat.eqb x c <> PrimFloat.eqb y c -> x <> y.
Proof. intros H ->. now apply H. Qed.

(** C4 as stated fails on binary64 revenue: with 1e16 in the North and 1 and 1
    in the South, the total is 1e16 and the regions add up to 1e16 + 2. *)
Lemma revenue_by_region_total_rounds :
  rounding_view <> []
  /\ nansum (map snd (revenue_by_region rounding_view))
     <> total_revenue (summarize rounding_view).
Proof.
  split; [discriminate|]. apply (float_neq_by 1e16). vm_compute. discriminate.
Qed.

(** ** The empty view *)

(** C6: when no row passes the filter, [main] renders the no-data warning and
    nothing else: no KPI, chart, table or insight is computed, and the run
    ends without an exception. *)
Theorem main_no_data (S : Sorter) (df : list SaleRecord) (c : Criteria) :
  filter_view df c = [] ->
  main S df c = mkOutcome [Warning no_data_message] None
  /\ Forall (fun e => shows_data e = false) (rendered (main S df c))
  /\ raised (main S df c) = None.
Proof.
  intros H. unfold main. rewrite H. simpl. repeat split. repeat constructor.
Qed.

Lemma main_no_data_witness :
  filter_view (load_data stable_sorter [row_A; row_B; row_C]) (all_of_2024 []) = []
  /\ main stable_sorter (load_data stable_sorter [row_A; row_B; row_C]) (all_of_2024 [])
     = mkOutcome [Warning no_data_message] None.
Proof.
  split; [reflexivity|].
  apply (main_no_data stable_sorter (load_data stable_sorter [row_A; row_B; row_C])
           (all_of_2024 [])).
  reflexivity.
Defined.

(** A view with rows does reach the aggregates. *)
Lemma main_with_data (S : Sorter) (df : list SaleRecord) (c : Criteria) :
  filter_view df c <> [] ->
  exists rest,
    rendered (main S df c) = kpi_events (summarize (filter_view df c)) ++ rest.
Proof.
  intros H. unfold main. destruct (filter_view df c) as [|r view]; [congruence|].
  cbv zeta.
  repeat match goal with
         | |- context [match ?e with Some _ => _ | None => _ end] => destruct e
         end;
    cbn [rendered]; rewrite <- ?app_assoc; eexists; reflexivity.
Qed.

(** ** Ratios *)

(** C8: the three ratios are plain binary64 divisions, defined for every
    input; with a zero divisor (of either sign) the quotient is an infinity or
    NaN, which the row carries on. *)
Theorem ratios_never_raise (r : CsvRow) (x : SaleRecord) (total : float) :
  gross_margin (derive r) = (profit r / revenue r)%float
  /\ revenue_per_unit (assign_ratios total x) = (revenue x / units x)%float
  /\ contribution (assign_ratios total x) = (revenue x / total)%float
  /\ (is_zero (revenue r) = true -> is_finite (gross_margin (derive r)) = false)
  /\ (is_zero (units x) = true ->
      is_finite (revenue_per_unit (assign_ratios total x)) = false)
  /\ (is_zero total = true -> is_finite (contribution (assign_ratios total x)) = false).
Proof.
  repeat split; simpl; apply div_by_zero_not_finite.
Qed.

Lemma ratios_never_raise_witness :
  is_finite (gross_margin (derive (sample_row (mkTs 2024 1 15 0) "North" 0 20 0))) = false
  /\ is_finite (contribution
                  (assign_ratios 0 (derive (sample_row (mkTs 2024 1 15 0) "North" 0 20 0))))
     = false.
Proof.
  pose proof (ratios_never_raise (sample_row (mkTs 2024 1 15 0) "North" 0 20 0)
                (derive (sample_row (mkTs 2024 1 15 0) "North" 0 20 0)) 0)
    as (_ & _ & _ & Hm & _ & Hc).
  split; [apply Hm | apply Hc]; reflexivity.
Defined.

(** The non-finite ratio stays in the frames: [load_data] drops no row. *)
Lemma load_data_length (S : Sorter) (HS : sorter_ok S) (raw : list CsvRow) :
  length (load_data S raw) = length raw.
Proof.
  unfold load_data. rewrite length_map.
  apply Permutation_length. now apply sort_values_Permutation.
Qed.

(** ** The mean margin *)























(** Ten sales, two of them with no margin: the other eight margins add up to
    13. *)
Example avg_gross_margin_value :
  avg_gross_margin (summarize margins_view) = 1.625%float.
Proof. reflexivity. Qed.

(** ** Contributions *)

Section ExactShares.
Context {V : Type} (add : V -> V -> V) (zero : V) (div : V -> V -> V).
Hypothesis add_assoc : forall a b c, add a (add b c) = add (add a b) c.
Hypothesis add_comm : forall a b, add a b = add b a.
Hypothesis add_zero_l : forall a, add zero a = a.
Hypothesis div_add : forall a b t, div (add a b) t = add (div a t) (div b t).
Hypothesis div_zero : forall t, div zero t = zero.

End ExactShares.





(** On the rows A and C of the North the contributions are 100/150 and 50/150
    and add up to 1. *)
Example contribution_sum_north :
  nansum (map contribution (rank_all stable_sorter (map derive [row_A; row_C]) 150))
  = 1%float.
Proof. reflexivity. Qed.

(** * Further properties of the pipeline *)

(** ** The view of a loaded frame *)

Lemma ts_le_trans (a b c : Timestamp) : ts_le a b -> ts_le b c -> ts_le a c.
Proof. apply ts_leb_trans. Qed.

Lemma StronglySorted_filter {A} (R : A -> A -> Prop) (p : A -> bool) (l : list A) :
  StronglySorted R l -> StronglySorted R (List.filter p l).
Proof.
  induction 1 as [|x l Hs IH Hall]; simpl; [constructor|].
  destruct (p x); [|exact IH]. constructor; [exact IH|].
  apply List.Forall_forall. intros y Hy. apply filter_In in Hy as [Hy _].
  now apply (proj1 (List.Forall_forall _ _) Hall).
Qed.

Lemma Sorted_filter_trans {A} (R : A -> A -> Prop) (p : A -> bool) (l : list A) :
  (forall a b c, R a b -> R b c -> R a c) ->
  Sorted R l -> Sorted R (List.filter p l).
Proof.
  intros Htrans H. apply StronglySorted_Sorted, StronglySorted_filter.
  apply Sorted_StronglySorted; [|exact H]. intros a b c. apply Htrans.
Qed.

Lemma load_data_by_date (S : Sorter) (HS : sorter_ok S) (raw : list CsvRow) :
  Sorted (fun a b : SaleRecord => ts_le (order_date a) (order_date b)) (load_data S raw).
Proof.
  unfold load_data. rewrite sort_values_no_na by reflexivity.
  apply (Sorted_fmap derive (fun a b : CsvRow => ts_le (order_date a) (order_date b)));
    [auto|].
  eapply Sorted_weaken; [|apply (argsorted_Sorted S HS order_date ts_ltb raw ts_ltb_asym)].
  intros a b _ _. apply ts_ltb_false_le.
Qed.

(** The filter keeps the frame's order by date: a view of a loaded frame is in
    ascending [order_date]. *)
Theorem filter_view_by_date (S : Sorter) (HS : sorter_ok S) (raw : list CsvRow)
    (c : Criteria) :
  Sorted (fun a b : SaleRecord => ts_le (order_date a) (order_date b))
         (filter_view (load_data S raw) c).
Proof.
  apply Sorted_filter_trans.
  - intros x y z. apply ts_le_trans.
  - now apply load_data_by_date.
Qed.

Lemma filter_view_by_date_witness :
  sorter_ok stable_sorter
  /\ Sorted (fun a b : SaleRecord => ts_le (order_date a) (order_date b))
       (filter_view (load_data stable_sorter [row_C; row_A; row_B])
          (all_of_2024 ["North"%string])).
Proof.
  split; [exact stable_sorter_ok|].
  apply (filter_view_by_date stable_sorter stable_sorter_ok).
Defined.

Lemma filter_filter_and {A} (p q : A -> bool) (l : list A) :
  List.filter p (List.filter q l) = List.filter (fun x => q x && p x) l.
Proof.
  induction l as [|x l IH]; simpl; [reflexivity|].
  destruct (q x); simpl; [|exact IH]. destruct (p x); now rewrite IH.
Qed.

(** Filtering a view again by the same selections changes nothing, and two
    selections applied one after the other give the same view in either
    order: the rows that pass both. *)
Theorem filter_view_compose (df : list SaleRecord) (c1 c2 : Criteria) :
  filter_view (filter_view df c1) c1 = filter_view df c1
  /\ filter_view (filter_view df c1) c2 = filter_view (filter_view df c2) c1
  /\ (forall r, In r (filter_view (filter_view df c1) c2)
                <-> In r df /\ mask c1 r = true /\ mask c2 r = true).
Proof.
  unfold filter_view. rewrite !filter_filter_and. split; [|split].
  - apply filter_ext. intros r. now destruct (mask c1 r).
  - apply filter_ext. intros r. apply andb_comm.
  - intros r. rewrite filter_In, andb_true_iff. tauto.
Qed.

(** ** Months *)

Lemma lex_leb_prefix2 (x1 y1 x2 y2 : Z) (a b : list Z) :
  lex_leb (x1 :: y1 :: a) (x2 :: y2 :: b) = true ->
  lex_leb [x1; y1; 1; 0] [x2; y2; 1; 0] = true.
Proof.
  simpl. destruct (Z.ltb_spec x1 x2), (Z.eqb_spec x1 x2), (Z.ltb_spec y1 y2),
    (Z.eqb_spec y1 y2); simpl; try lia; try discriminate; auto.
Qed.

(** Cutting a date to its month is idempotent and keeps the order of dates;
    the month start is not after a date whose day is at least 1. *)
Theorem to_month_start_monotone (a b : Timestamp) :
  to_month_start (to_month_start a) = to_month_start a
  /\ (ts_le a b -> ts_le (to_month_start a) (to_month_start b))
  /\ (1 <= day a -> 0 <= nanos a -> ts_le (to_month_start a) a).
Proof.
  repeat split.
  - unfold ts_le, ts_leb, ts_key, to_month_start. cbn [year month_of day nanos].
    apply lex_leb_prefix2.
  - apply to_month_start_le.
Qed.

Lemma to_month_start_monotone_witness :
  ts_le (mkTs 2024 1 15 0) (mkTs 2024 2 10 0)
  /\ ts_le (to_month_start (mkTs 2024 1 15 0)) (to_month_start (mkTs 2024 2 10 0)).
Proof.
  split; [reflexivity|].
  pose proof (to_month_start_monotone (mkTs 2024 1 15 0) (mkTs 2024 2 10 0))
    as (_ & H & _).
  apply H. reflexivity.
Defined.

(** ** Sidebar *)

Section Unique.
Context {K : Type} (eqb : K -> K -> bool).
Hypothesis eqb_eq : forall a b, eqb a b = true <-> a = b.

Lemma existsb_eqb_In (x : K) (l : list K) : existsb (eqb x) l = true <-> In x l.
Proof.
  rewrite existsb_exists. split.
  - intros (y & Hy & E). apply eqb_eq in E. now subst.
  - intros H. exists x. split; [exact H | now apply eqb_eq].
Qed.

Lemma unique_from_In (x : K) (seen l : list K) :
  In x (unique_from eqb seen l) <-> In x l /\ ~ In x seen.
Proof.
  revert seen. induction l as [|y l IH]; intros seen; simpl; [tauto|].
  destruct (existsb (eqb y) seen) eqn:E.
  - apply existsb_eqb_In in E. rewrite IH. split.
    + tauto.
    + intros [[<- | H] Hn]; tauto.
  - assert (~ In y seen) as Hy.
    { intros H. apply existsb_eqb_In in H. congruence. }
    simpl. rewrite IH. simpl. split.
    + intros [<- | [H Hn]]; [tauto|]. split; [tauto|]. intros Hs. apply Hn. now right.
    + intros [[<- | H] Hn]; [now left|].
      destruct (eqb y x) eqn:Eyx.
      * apply eqb_eq in Eyx. now left.
      * right. split; [exact H|]. intros [-> | Hs]; [|tauto].
        assert (eqb x x = true) by now apply eqb_eq. congruence.
Qed.

Lemma unique_from_NoDup (seen l : list K) : List.NoDup (unique_from eqb seen l).
Proof.
  revert seen. induction l as [|y l IH]; intros seen; simpl; [constructor|].
  destruct (existsb (eqb y) seen); [apply IH|].
  constructor; [|apply IH]. intros H. apply unique_from_In in H as [_ H].
  apply H. now left.
Qed.

Lemma unique_In (x : K) (l : list K) : In x (unique eqb l) <-> In x l.
Proof. unfold unique. rewrite unique_from_In. simpl. tauto. Qed.
End Unique.

Lemma string_ltb_false_leb (a b : string) : String.ltb b a = false <-> String.leb a b = true.
Proof.
  unfold String.ltb, String.leb. rewrite (String.compare_antisym a b).
  destruct (String.compare b a); simpl; split; congruence.
Qed.

Lemma string_ltb_asym (a b : string) : String.ltb a b = true -> String.ltb b a = false.
Proof.
  unfold String.ltb. rewrite (String.compare_antisym b a).
  destruct (String.compare a b); simpl; congruence.
Qed.

Lemma py_sorted_Permutation {K} (ltb : K -> K -> bool) (l : list K) :
  Permutation (py_sorted ltb l) l.
Proof. apply argsorted_Permutation, stable_sorter_ok. Qed.

Lemma strict_of_NoDup {K} (leb : K -> K -> bool) (l : list K) :
  (forall a b, leb a b = true -> leb b a = true -> a = b) ->
  StronglySorted (fun a b => leb a b = true) l -> List.NoDup l ->
  StronglySorted (key_lt leb) l.
Proof.
  intros Hanti Hs. induction Hs as [|x l Hs IH Hall]; intros Hnd; [constructor|].
  apply List.NoDup_cons_iff in Hnd as [Hx Hnd]. constructor; [auto|].
  apply List.Forall_forall. intros y Hy.
  pose proof (proj1 (List.Forall_forall _ _) Hall y Hy) as Hxy. split; [exact Hxy|].
  destruct (leb y x) eqn:E; [|reflexivity].
  exfalso. apply Hx. now rewrite (Hanti x y Hxy E).
Qed.

Lemma options_In (col : SaleRecord -> string) (df : list SaleRecord) (x : string) :
  In x (options col df) <-> In x (map col df).
Proof.
  unfold options. rewrite <- (unique_In String.eqb String.eqb_eq x (map col df)).
  split; apply Permutation_in;
    [|symmetry]; apply py_sorted_Permutation.
Qed.

(** The options of each multiselect are the values of its column in the
    frame, each once, in strictly ascending order. *)
Theorem options_sorted (col : SaleRecord -> string) (df : list SaleRecord) :
  StronglySorted (key_lt String.leb) (options col df)
  /\ (forall x, In x (options col df) <-> exists r, In r df /\ col r = x).
Proof.
  split.
  - apply strict_of_NoDup.
    + apply String.leb_antisym.
    + apply Sorted_StronglySorted; [intros a b c; apply string_leb_trans|].
      eapply Sorted_weaken;
        [|apply (argsorted_Sorted stable_sorter stable_sorter_ok (fun x : string => x)
                   String.ltb _ string_ltb_asym)].
      intros a b _ _. apply string_ltb_false_leb.
    + apply (Permutation_NoDup (l := unique String.eqb (map col df))).
      * symmetry. apply py_sorted_Permutation.
      * apply unique_from_NoDup, String.eqb_eq.
  - intros x. rewrite options_In, in_map_iff. split; intros (r & H1 & H2); eauto.
Qed.

Lemma fold_min_spec (ts : list Timestamp) (m : Timestamp) :
  let lo := fold_left (fun m x => if ts_ltb x m then x else m) ts m in
  ts_le lo m /\ (forall x, In x ts -> ts_le lo x) /\ (lo = m \/ In lo ts).
Proof.
  revert m. induction ts as [|t ts IH]; intros m; simpl.
  - split; [apply ts_leb_refl|]. split; [tauto | now left].
  - destruct (IH (if ts_ltb t m then t else m)) as (H1 & H2 & H3).
    assert (ts_le (if ts_ltb t m then t else m) m
            /\ ts_le (if ts_ltb t m then t else m) t) as [Hm Ht].
    { unfold ts_ltb. destruct (ts_leb m t) eqn:E; simpl.
      - split; [apply ts_leb_refl | exact E].
      - split; [now apply ts_leb_total | apply ts_leb_refl]. }
    split; [eapply ts_le_trans; eassumption|]. split.
    + intros x [<- | Hx]; [eapply ts_le_trans; eassumption | auto].
    + destruct H3 as [H3 | H3]; [|now right; right].
      rewrite H3. destruct (ts_ltb t m); [right; now left | now left].
Qed.

Lemma fold_max_spec (ts : list Timestamp) (m : Timestamp) :
  let hi := fold_left (fun m x => if ts_ltb m x then x else m) ts m in
  ts_le m hi /\ (forall x, In x ts -> ts_le x hi) /\ (hi = m \/ In hi ts).
Proof.
  revert m. induction ts as [|t ts IH]; intros m; simpl.
  - split; [apply ts_leb_refl|]. split; [tauto | now left].
  - destruct (IH (if ts_ltb m t then t else m)) as (H1 & H2 & H3).
    assert (ts_le m (if ts_ltb m t then t else m)
            /\ ts_le t (if ts_ltb m t then t else m)) as [Hm Ht].
    { unfold ts_ltb. destruct (ts_leb t m) eqn:E; simpl.
      - split; [apply ts_leb_refl | exact E].
      - split; [now apply ts_leb_total | apply ts_leb_refl]. }
    split; [eapply ts_le_trans; eassumption|]. split.
    + intros x [<- | Hx]; [eapply ts_le_trans; eassumption | auto].
    + destruct H3 as [H3 | H3]; [|now right; right].
      rewrite H3. destruct (ts_ltb m t); [right; now left | now left].
Qed.

(** The ends of the date slider are dates of the frame, and every date of the
    frame lies between them; an empty frame has neither. *)
Theorem date_range_bounds (ts : list Timestamp) :
  match ts_min ts, ts_max ts with
  | Some lo, Some hi =>
      In lo ts /\ In hi ts /\ (forall x, In x ts -> ts_le lo x /\ ts_le x hi)
  | None, None => ts = []
  | _, _ => False
  end.
Proof.
  destruct ts as [|t ts]; simpl; [reflexivity|].
  destruct (fold_min_spec ts t) as (L1 & L2 & L3).
  destruct (fold_max_spec ts t) as (M1 & M2 & M3).
  split; [destruct L3 as [L3|L3]; [left; now rewrite L3 | now right]|].
  split; [destruct M3 as [M3|M3]; [left; now rewrite M3 | now right]|].
  intros x [<- | Hx]; split; auto.
Qed.

(** ** Descending order on binary64 keys *)

Ltac sf_cmp3 :=
  repeat match goal with
  | |- context [Z.compare ?a ?b] =>
      let H := fresh in destruct (Z.compare_spec a b) as [H|H|H]
  | |- context [PosDef.Pos.compare_cont Eq ?a ?b] =>
      let H := fresh in
      pose proof (Pos.compare_spec a b) as H; unfold Pos.compare in H;
      destruct H
  end; cbn [CompOpp]; try congruence; try lia.

Lemma float_leb_trans (a b c : float) :
  (a <=? b)%float = true -> (b <=? c)%float = true -> (a <=? c)%float = true.
Proof.
  rewrite !FloatAxioms.leb_spec. unfold SFleb.
  destruct (Prim2SF a) as [[]|[]| |[] m1 e1], (Prim2SF b) as [[]|[]| |[] m2 e2],
    (Prim2SF c) as [[]|[]| |[] m3 e3]; cbn [SFcompare]; try congruence; sf_cmp3.
Qed.

Lemma float_leb_refl (a : float) : is_nan a = false -> (a <=? a)%float = true.
Proof.
  rewrite is_nan_spec, FloatAxioms.leb_spec. unfold SFleb. intros H.
  rewrite SFcompare_refl; [reflexivity|]. intros E. now rewrite E in H.
Qed.

Lemma desc_na_last_trans {A} (by_ : A -> float) (a b c : A) :
  desc_na_last by_ a b -> desc_na_last by_ b c -> desc_na_last by_ a c.
Proof.
  unfold desc_na_last. intros [Hb | (Ha & Hb & Hab)] [Hc | (Hb' & Hc & Hbc)];
    try (now left); try congruence.
  right. repeat split; auto. now apply float_leb_trans with (by_ b).
Qed.

Lemma sort_values_desc_strongly {A} (S : Sorter) (HS : sorter_ok S) (by_ : A -> float)
    (rows : list A) :
  StronglySorted (desc_na_last by_) (sort_values S by_ is_nan PrimFloat.ltb false rows).
Proof.
  apply Sorted_StronglySorted; [intros a b c; apply desc_na_last_trans|].
  eapply Sorted_weaken;
    [|apply (sort_values_desc_Sorted S HS by_ is_nan PrimFloat.ltb rows float_ltb_asym)].
  intros a b _ _ [Hb | (Ha & Hb & Hab)]; [now left | right].
  repeat split; auto. now apply float_ltb_false_leb.
Qed.

Lemma StronglySorted_head {A} (R : A -> A -> Prop) (l : list A) (x y : A) :
  StronglySorted R l -> head l = Some x -> In y l -> y = x \/ R x y.
Proof.
  intros Hs Hx Hy. destruct Hs as [|z l Hs Hall]; [discriminate|].
  simpl in Hx. injection Hx as ->. destruct Hy as [-> | Hy]; [now left | right].
  now apply (proj1 (List.Forall_forall _ _) Hall).
Qed.

Lemma StronglySorted_last {A} (R : A -> A -> Prop) (l : list A) (x y : A) :
  StronglySorted R l -> last l = Some x -> In y l -> y = x \/ R y x.
Proof.
  induction 1 as [|z l Hs IH Hall]; intros Hx Hy; [discriminate|].
  destruct l as [|z' l].
  - simpl in Hx. injection Hx as ->. destruct Hy as [-> | []]. now left.
  - change (last (z' :: l) = Some x) in Hx. destruct Hy as [-> | Hy]; [|auto].
    right. apply (proj1 (List.Forall_forall _ _) Hall).
    clear -Hx. revert z' Hx. induction l as [|w l IH]; intros z' Hx.
    + simpl in Hx. injection Hx as ->. now left.
    + right. apply (IH w). exact Hx.
Qed.

(** The first row of a descending sort has the greatest key among the rows
    whose key is a number, and the last row, when its key is a number, the
    least, every key then being a number. *)
Lemma sort_desc_extremes {A} (S : Sorter) (HS : sorter_ok S) (by_ : A -> float)
    (rows : list A) :
  let sorted := sort_values S by_ is_nan PrimFloat.ltb false rows in
  (forall top x, head sorted = Some top -> In x rows -> is_nan (by_ x) = false ->
     is_nan (by_ top) = false /\ (by_ x <=? by_ top)%float = true)
  /\ (forall bottom x, last sorted = Some bottom -> In x rows ->
        is_nan (by_ bottom) = false ->
        is_nan (by_ x) = false /\ (by_ bottom <=? by_ x)%float = true).
Proof.
  cbv zeta.
  pose proof (sort_values_desc_strongly S HS by_ rows) as Hs.
  pose proof (sort_values_Permutation S HS by_ is_nan PrimFloat.ltb false rows) as Hp.
  split.
  - intros top x Htop Hx Hnan.
    apply (Permutation_in _ (Permutation_sym Hp)) in Hx.
    destruct (StronglySorted_head _ _ top x Hs Htop Hx) as [-> | [H | (H1 & H2 & H3)]].
    + split; [exact Hnan | now apply float_leb_refl].
    + congruence.
    + now split.
  - intros bottom x Hbot Hx Hnan.
    apply (Permutation_in _ (Permutation_sym Hp)) in Hx.
    destruct (StronglySorted_last _ _ bottom x Hs Hbot Hx) as [-> | [H | (H1 & H2 & H3)]].
    + split; [exact Hnan | now apply float_leb_refl].
    + congruence.
    + now split.
Qed.

(** ** Insights *)

Lemma insert_key_not_nil {K} (eqb leb : K -> K -> bool) (k : K) (keys : list K) :
  insert_key eqb leb k keys <> [].
Proof.
  destruct keys as [|x keys]; simpl; [discriminate|].
  destruct (eqb k x); [discriminate|]. destruct (leb k x); discriminate.
Qed.

Lemma groupby_agg_not_nil {K} (eqb leb : K -> K -> bool) (key : SaleRecord -> K)
    (col : SaleRecord -> float) (agg : list float -> float) (view : list SaleRecord) :
  view <> [] -> groupby_agg eqb leb key col agg view <> [].
Proof.
  intros Hv H. apply (f_equal (@length _)) in H.
  unfold groupby_agg, groupby in H. rewrite !length_map in H.
  destruct view as [|r view]; [congruence|]. simpl in H.
  apply length_zero_iff_nil in H. now apply insert_key_not_nil in H.
Qed.

Lemma sort_desc_not_nil {K} (S : Sorter) (HS : sorter_ok S) (groups : list (K * float)) :
  groups <> [] ->
  exists first final, head (sort_desc S groups) = Some first
                      /\ last (sort_desc S groups) = Some final.
Proof.
  intros Hg.
  pose proof (sort_values_Permutation S HS snd is_nan PrimFloat.ltb false groups) as Hp.
  fold (sort_desc S groups) in Hp.
  destruct (sort_desc S groups) as [|g l] eqn:E.
  - apply Permutation_nil in Hp. congruence.
  - exists g. destruct (last (g :: l)) as [f|] eqn:El; [eauto|].
    apply last_None in El. discriminate.
Qed.

(** On a view with rows the three [iloc] lookups of the insights are in
    bounds: [main] renders the five KPIs, the four charts, the table and the
    three insights, and no [IndexError] ends it. *)
Theorem main_renders (S : Sorter) (HS : sorter_ok S) (df : list SaleRecord)
    (c : Criteria) :
  filter_view df c <> [] ->
  exists best worst top,
    best_region S (filter_view df c) = Some best
    /\ worst_region S (filter_view df c) = Some worst
    /\ top_margin_category S (filter_view df c) = Some top
    /\ main S df c
       = mkOutcome (chart_events S (filter_view df c)
                    ++ [SuccessBox best; InfoBox worst; TextLine top]) None.
Proof.
  intros Hv. unfold main, best_region, worst_region, top_margin_category, chart_events.
  destruct (sort_desc_not_nil S HS (revenue_by_region (filter_view df c)))
    as (best & worst & Hb & Hw); [now apply groupby_agg_not_nil|].
  destruct (sort_desc_not_nil S HS (margin_by_category (filter_view df c)))
    as (top & _ & Ht & _); [now apply groupby_agg_not_nil|].
  exists best, worst, top.
  destruct (filter_view df c) as [|r view] eqn:E; [congruence|].
  cbv zeta. rewrite Hb, Hw, Ht. repeat split; reflexivity.
Qed.

Lemma main_renders_witness :
  sorter_ok stable_sorter
  /\ filter_view (load_data stable_sorter [row_A; row_B; row_C])
       (all_of_2024 ["North"%string]) <> []
  /\ raised (main stable_sorter (load_data stable_sorter [row_A; row_B; row_C])
               (all_of_2024 ["North"%string])) = None.
Proof.
  split; [exact stable_sorter_ok|]. split; [discriminate|].
  destruct (main_renders stable_sorter stable_sorter_ok
              (load_data stable_sorter [row_A; row_B; row_C])
              (all_of_2024 ["North"%string]))
    as (best & worst & top & _ & _ & _ & H); [discriminate|].
  now rewrite H.
Defined.

(** The region of the success box has the greatest revenue among the regions
    whose revenue is a number; the region of the info box, when its revenue is
    a number, has the least. *)
Theorem best_and_worst_region (S : Sorter) (HS : sorter_ok S) (view : list SaleRecord) :
  (forall best g, best_region S view = Some best ->
     In g (revenue_by_region view) -> is_nan (snd g) = false ->
     In best (revenue_by_region view)
     /\ is_nan (snd best) = false /\ (snd g <=? snd best)%float = true)
  /\ (forall worst g, worst_region S view = Some worst ->
        In g (revenue_by_region view) -> is_nan (snd worst) = false ->
        In worst (revenue_by_region view)
        /\ is_nan (snd g) = false /\ (snd worst <=? snd g)%float = true).
Proof.
  pose proof (sort_desc_extremes S HS (@snd string float) (revenue_by_region view))
    as [Htop Hbot].
  pose proof (sort_values_Permutation S HS snd is_nan PrimFloat.ltb false
                (revenue_by_region view)) as Hp.
  unfold best_region, worst_region, sort_desc. split.
  - intros best g Hb Hg Hn. split; [|now apply Htop].
    apply (Permutation_in _ Hp). destruct (sort_values _ _ _ _ _ _); [discriminate|].
    simpl in Hb. injection Hb as ->. now left.
  - intros worst g Hw Hg Hn. split; [|now apply Hbot].
    apply (Permutation_in _ Hp). apply list_elem_of_In. now apply last_Some_elem_of.
Qed.

Lemma best_and_worst_region_witness :
  sorter_ok stable_sorter
  /\ best_region stable_sorter (map derive [row_A; row_B; row_C])
     = Some ("South"%string, 200%float)
  /\ (150 <=? 200)%float = true.
Proof.
  split; [exact stable_sorter_ok|]. split; [reflexivity|].
  destruct (best_and_worst_region stable_sorter stable_sorter_ok
              (map derive [row_A; row_B; row_C])) as [H _].
  apply (H ("South"%string, 200%float) ("North"%string, 150%float)).
  - reflexivity.
  - left. reflexivity.
  - reflexivity.
Defined.

(** The category of the text line has the greatest mean margin among the
    categories whose mean margin is a number. *)
Theorem top_margin_category_max (S : Sorter) (HS : sorter_ok S) (view : list SaleRecord)
    (top g : string * float) :
  top_margin_category S view = Some top ->
  In g (margin_by_category view) -> is_nan (snd g) = false ->
  In top (margin_by_category view)
  /\ is_nan (snd top) = false /\ (snd g <=? snd top)%float = true.
Proof.
  intros Ht Hg Hn.
  pose proof (sort_desc_extremes S HS (@snd string float) (margin_by_category view))
    as [Htop _].
  pose proof (sort_values_Permutation S HS snd is_nan PrimFloat.ltb false
                (margin_by_category view)) as Hp.
  unfold top_margin_category, sort_desc in Ht. split; [|now apply Htop].
  apply (Permutation_in _ Hp). destruct (sort_values _ _ _ _ _ _); [discriminate|].
  simpl in Ht. injection Ht as ->. now left.
Qed.

Lemma top_margin_category_max_witness :
  top_margin_category stable_sorter (map derive [row_A; row_F; row_B; row_C])
  = Some ("Office"%string, group_mean [20 / 100; 50 / 200; 5 / 50]%float)
  /\ (40 / 400 <=? group_mean [20 / 100; 50 / 200; 5 / 50])%float = true.
Proof.
  split; [reflexivity|].
  apply (top_margin_category_max stable_sorter stable_sorter_ok
           (map derive [row_A; row_F; row_B; row_C])
           ("Office"%string, group_mean [20 / 100; 50 / 200; 5 / 50]%float)
           ("Furniture"%string, (40 / 400)%float)).
  - reflexivity.
  - left. reflexivity.
  - reflexivity.
Defined.





(** ** The top of the ranking *)

Lemma head_firstn {A} (n : nat) (l : list A) (x : A) :
  head (firstn n l) = Some x -> head l = Some x.
Proof. destruct n, l; simpl; congruence. Qed.

(** The first row of the ranked table has the greatest revenue among the rows
    of the view whose revenue is a number. *)
Theorem rank_top_row (S : Sorter) (HS : sorter_ok S) (view : list SaleRecord)
    (total : float) (limit : nat) (top : RankedRow) (x : SaleRecord) :
  head (rank S view total limit) = Some top ->
  In x view -> is_nan (revenue x) = false ->
  is_nan (revenue top) = false /\ (revenue x <=? revenue top)%float = true.
Proof.
  intros Htop Hx Hn. unfold rank in Htop. apply head_firstn in Htop.
  destruct (sort_desc_extremes S HS (fun r : RankedRow => revenue r)
              (map (assign_ratios total) view)) as [H _].
  apply (H top (assign_ratios total x) Htop); [now apply in_map | exact Hn].
Qed.

Lemma rank_top_row_witness :
  head (rank stable_sorter (map derive [row_A; row_B; row_C]) 350 default_limit)
  = Some (assign_ratios 350 (derive row_B))
  /\ (revenue row_A <=? revenue row_B)%float = true.
Proof.
  split; [reflexivity|].
  apply (rank_top_row stable_sorter stable_sorter_ok (map derive [row_A; row_B; row_C])
           350 default_limit (assign_ratios 350 (derive row_B)) (derive row_A)).
  - reflexivity.
  - left. reflexivity.
  - reflexivity.
Defined.

(** ** Groups *)

Section Groups.
Context {K : Type} (eqb leb : K -> K -> bool) (key : SaleRecord -> K).
Hypothesis eqb_eq : forall a b, eqb a b = true <-> a = b.

Lemma groupby_agg_keys_present (col : SaleRecord -> float) (agg : list float -> float)
    (view : list SaleRecord) (k : K) :
  In k (map fst (groupby_agg eqb leb key col agg view))
  <-> exists r, In r view /\ key r = k.
Proof.
  rewrite groupby_agg_keys, (group_keys_In eqb leb eqb_eq), in_map_iff.
  split; intros (r & H1 & H2); exists r; now split.
Qed.

Lemma groupby_group (view : list SaleRecord) (k : K) (rows : list SaleRecord) :
  In (k, rows) (groupby eqb leb key view) ->
  rows <> [] /\ rows `sublist_of` view /\ Forall (fun r => key r = k) rows.
Proof.
  unfold groupby. intros H. apply in_map_iff in H as (k' & E & Hk).
  injection E as -> <-.
  apply (group_keys_In eqb leb eqb_eq), in_map_iff in Hk as (r & Hr & Hin).
  repeat split.
  - intros E. assert (In r (List.filter (fun r => eqb (key r) k) view)) as Hf.
    { apply filter_In. split; [exact Hin | now apply eqb_eq]. }
    rewrite E in Hf. destruct Hf.
  - apply filter_bool_sublist.
  - apply List.Forall_forall. intros x Hx. apply filter_In in Hx as [_ Hx].
    now apply eqb_eq.
Qed.

Lemma groupby_agg_entry (col : SaleRecord -> float) (agg : list float -> float)
    (view : list SaleRecord) (k : K) (rows : list SaleRecord) :
  In (k, rows) (groupby eqb leb key view) ->
  In (k, agg (map col rows)) (groupby_agg eqb leb key col agg view).
Proof.
  intros H. unfold groupby_agg. apply in_map_iff. exists (k, rows). now split.
Qed.
End Groups.

Lemma grouped_frame_keys_aux (view : list SaleRecord) (k : Timestamp) :
  In k (map fst (revenue_by_month view)) -> exists r, In r view /\ month r = k.
Proof. apply (groupby_agg_keys_present ts_eqb ts_leb month ts_eqb_eq). Qed.

(** Each of the three grouped frames has one entry for every key that occurs
    in the view and none for any other. *)
Theorem grouped_frame_keys (view : list SaleRecord) :
  (forall k, In k (map fst (revenue_by_month view))
             <-> exists r, In r view /\ month r = k)
  /\ (forall k, In k (map fst (margin_by_category view))
                <-> exists r : SaleRecord, In r view /\ product_category r = k)
  /\ (forall k, In k (map fst (revenue_by_region view))
                <-> exists r : SaleRecord, In r view /\ region r = k).
Proof.
  split; [|split]; intros k.
  - apply (groupby_agg_keys_present ts_eqb ts_leb month ts_eqb_eq).
  - apply (groupby_agg_keys_present String.eqb String.leb
             (fun r : SaleRecord => product_category r) String.eqb_eq).
  - apply (groupby_agg_keys_present String.eqb String.leb
             (fun r : SaleRecord => region r) String.eqb_eq).
Qed.

(** The months split the view: every row is in the group of its month, once;
    a group has at least one row, its rows are rows of that month in view
    order, and the series has the group's compensated sum of revenue at that
    month, which for whole revenues is their sum. *)
Theorem revenue_by_month_groups (view : list SaleRecord) :
  Permutation (concat (map snd (groupby ts_eqb ts_leb month view))) view
  /\ (forall k rows, In (k, rows) (groupby ts_eqb ts_leb month view) ->
        let revenues := map (fun r : SaleRecord => revenue r) rows in
        rows <> [] /\ rows `sublist_of` view
        /\ Forall (fun r : SaleRecord => month r = k) rows
        /\ In (k, group_sum revenues) (revenue_by_month view)
        /\ (Forall (fun x => is_whole x = true) revenues ->
            sum_abs (map int_of revenues) < 2 ^ 53 ->
            exists v, whole v (sum_Z (map int_of revenues))
                      /\ In (k, v) (revenue_by_month view))).
Proof.
  split.
  - apply groupby_partition.
    + apply ts_eqb_eq.
    + apply ts_leb_total.
    + apply ts_leb_antisym.
    + apply ts_leb_trans.
  - intros k rows H. cbv zeta.
    destruct (groupby_group ts_eqb ts_leb month ts_eqb_eq view k rows H) as (H1 & H2 & H3).
    pose proof (groupby_agg_entry ts_eqb ts_leb month (fun r : SaleRecord => revenue r)
                  group_sum view k rows H) as H4.
    repeat split; auto.
    intros Hw Hb. eexists. split; [|exact H4].
    apply group_sum_whole; [now apply is_whole_all | exact Hb].
Qed.


(** The points of the revenue series of a loaded and filtered frame are at
    month starts: day 1, midnight. *)
Theorem revenue_by_month_at_month_start (S : Sorter) (raw : list CsvRow) (c : Criteria)
    (k : Timestamp) :
  In k (map fst (revenue_by_month (filter_view (load_data S raw) c))) ->
  day k = 1 /\ nanos k = 0.
Proof.
  intros H. apply grouped_frame_keys_aux in H as (r & Hr & <-).
  apply filter_In in Hr as [Hr _]. unfold load_data in Hr.
  apply in_map_iff in Hr as (x & <- & _). split; reflexivity.
Qed.

Lemma revenue_by_month_at_month_start_witness :
  In (mkTs 2024 1 1 0)
     (map fst (revenue_by_month
                 (filter_view (load_data stable_sorter [row_A; row_B; row_C])
                    (all_of_2024 ["North"%string]))))
  /\ day (mkTs 2024 1 1 0) = 1.
Proof.
  split; [left; reflexivity|].
  apply (revenue_by_month_at_month_start stable_sorter [row_A; row_B; row_C]
           (all_of_2024 ["North"%string]) (mkTs 2024 1 1 0)).
  left. reflexivity.
Defined.

(** ** Size of the table and narrowing of the filter *)

(** The ranked table has [limit] rows when the view has that many, and all the
    rows of the view otherwise. *)
Theorem rank_length (S : Sorter) (HS : sorter_ok S) (view : list SaleRecord)
    (total : float) (limit : nat) :
  length (rank S view total limit) = Nat.min limit (length view).
Proof.
  unfold rank. rewrite length_firstn.
  rewrite (Permutation_length
             (sort_values_Permutation S HS (fun r : RankedRow => revenue r) is_nan
                PrimFloat.ltb false (map (assign_ratios total) view))).
  now rewrite length_map.
Qed.

Lemma rank_length_witness :
  sorter_ok stable_sorter
  /\ length (rank stable_sorter (map derive [row_A; row_B; row_C]) 350 2) = 2%nat.
Proof.
  split; [exact stable_sorter_ok|].
  apply (rank_length stable_sorter stable_sorter_ok (map derive [row_A; row_B; row_C]) 350 2).
Defined.

Lemma filter_sublist_impl {A} (p q : A -> bool) (l : list A) :
  (forall x, p x = true -> q x = true) ->
  List.filter p l `sublist_of` List.filter q l.
Proof.
  intros H. induction l as [|x l IH]; simpl; [constructor|].
  destruct (p x) eqn:E.
  - rewrite (H x E). now constructor.
  - destruct (q x); [now constructor | exact IH].
Qed.

Lemma isin_incl (x : string) (small large : list string) :
  incl small large -> isin x small = true -> isin x large = true.
Proof.
  intros H Hx. apply isin_spec, list_elem_of_In in Hx.
  apply isin_spec, list_elem_of_In. auto.
Qed.

(** Narrowing the selections never adds a row: when the date range of [c1]
    lies within that of [c2] and each selection of [c1] is among that of [c2],
    the view of [c1] is a subsequence of the view of [c2]. *)
Theorem filter_view_narrowing (df : list SaleRecord) (c1 c2 : Criteria) :
  ts_le (start_date c2) (start_date c1) -> ts_le (end_date c1) (end_date c2) ->
  incl (selected_regions c1) (selected_regions c2) ->
  incl (selected_segments c1) (selected_segments c2) ->
  incl (selected_categories c1) (selected_categories c2) ->
  filter_view df c1 `sublist_of` filter_view df c2.
Proof.
  intros Hs He Hr Hg Hc. apply filter_sublist_impl. intros r. unfold mask.
  rewrite !andb_true_iff. intros ((((H1 & H2) & H3) & H4) & H5).
  repeat split.
  - now apply ts_leb_trans with (start_date c1).
  - now apply ts_leb_trans with (end_date c1).
  - now apply isin_incl with (selected_regions c1).
  - now apply isin_incl with (selected_segments c1).
  - now apply isin_incl with (selected_categories c1).
Qed.

Lemma filter_view_narrowing_witness :
  filter_view (map derive [row_A; row_B; row_C]) (all_of_2024 ["North"%string])
  `sublist_of`
  filter_view (map derive [row_A; row_B; row_C]) (all_of_2024 ["North"; "South"]%string).
Proof.
  apply (filter_view_narrowing (map derive [row_A; row_B; row_C])
           (all_of_2024 ["North"%string]) (all_of_2024 ["North"; "South"]%string)).
  - reflexivity.
  - reflexivity.
  - intros x [<- | []]. left. reflexivity.
  - apply incl_refl.
  - apply incl_refl.
Defined.
